(** * The routing continuum of the locator service

    A shallow embedding of [src/service/locator/routing.cpp]: the weighted
    consistent-hash ring [continuum_t], its constructor and its three
    lookups [get(key)], [get()] and [all()]. The last part embeds the
    plugin registry of [src/registry.cpp] over the loader and the file
    system it calls.

    Conventions of the embedding.
    - The host is an LP64 little-endian machine (x86-64 with glibc):
      [size_t] and [long] are 64 bits wide, [point_type] is [uint32_t], and
      the union [digest_t] reads the sixteen digest octets as four
      little-endian words.
    - [double] is the primitive binary64 [float]; the single-precision
      accumulator of [boost::accumulate(..., 0.0f)] is a [float] rounded to
      binary32 after every addition.
    - The arithmetic type of the weights, declared in a header that is not
      among the sources, is a parameter ([WeightType]): every statement
      holds for every such type, [double] and [unsigned int] among them.
    - [std::string] is [string], a sequence of octets.
    - A [std::vector] is a [list] and memory is unbounded; [mhash_init]
      always succeeds.
    - [std::sort], the random engine and its distribution are taken
      through their contracts ([StdSort], [RandomEngine]); every statement
      holds for every implementation that meets them.
    - A member function returns its result together with the records it
      hands to the logging sink; the keyless [get] also returns the object
      it leaves. Undefined behaviour ([front()] of an empty vector) is
      [None]. *)

From Stdlib Require Import ZArith List Lia Bool Ascii String.
From Stdlib Require Import Sorting.Sorted Sorting.Permutation.
From Stdlib Require Import Floats.PrimFloat Floats.SpecFloat Floats.FloatOps.
From Equations Require Import Equations.
Import ListNotations.

Local Open Scope Z_scope.

(** * Part I: the program *)

(** ** MD5 (RFC 1321), the digest [mhash] computes for [MHASH_MD5] *)

Module MD5.

Definition mask32 (x : Z) : Z := Z.land x 0xffffffff.

Definition add32 (x y : Z) : Z := mask32 (x + y).

Definition rotl32 (x c : Z) : Z :=
  mask32 (Z.lor (Z.shiftl x c) (Z.shiftr x (32 - c))).

Definition not32 (x : Z) : Z := Z.lxor x 0xffffffff.

(** [K[i] = floor(2^32 * |sin(i + 1)|)]. *)
Definition K : list Z :=
  [ 0xd76aa478; 0xe8c7b756; 0x242070db; 0xc1bdceee;
    0xf57c0faf; 0x4787c62a; 0xa8304613; 0xfd469501;
    0x698098d8; 0x8b44f7af; 0xffff5bb1; 0x895cd7be;
    0x6b901122; 0xfd987193; 0xa679438e; 0x49b40821;
    0xf61e2562; 0xc040b340; 0x265e5a51; 0xe9b6c7aa;
    0xd62f105d; 0x02441453; 0xd8a1e681; 0xe7d3fbc8;
    0x21e1cde6; 0xc33707d6; 0xf4d50d87; 0x455a14ed;
    0xa9e3e905; 0xfcefa3f8; 0x676f02d9; 0x8d2a4c8a;
    0xfffa3942; 0x8771f681; 0x6d9d6122; 0xfde5380c;
    0xa4beea44; 0x4bdecfa9; 0xf6bb4b60; 0xbebfbc70;
    0x289b7ec6; 0xeaa127fa; 0xd4ef3085; 0x04881d05;
    0xd9d4d039; 0xe6db99e5; 0x1fa27cf8; 0xc4ac5665;
    0xf4292244; 0x432aff97; 0xab9423a7; 0xfc93a039;
    0x655b59c3; 0x8f0ccc92; 0xffeff47d; 0x85845dd1;
    0x6fa87e4f; 0xfe2ce6e0; 0xa3014314; 0x4e0811a1;
    0xf7537e82; 0xbd3af235; 0x2ad7d2bb; 0xeb86d391 ].

(** Per-round left-rotation amounts. *)
Definition S : list Z :=
  [ 7; 12; 17; 22; 7; 12; 17; 22; 7; 12; 17; 22; 7; 12; 17; 22;
    5;  9; 14; 20; 5;  9; 14; 20; 5;  9; 14; 20; 5;  9; 14; 20;
    4; 11; 16; 23; 4; 11; 16; 23; 4; 11; 16; 23; 4; 11; 16; 23;
    6; 10; 15; 21; 6; 10; 15; 21; 6; 10; 15; 21; 6; 10; 15; 21 ].

(** Little-endian octets of the low [n] octets of [x]. *)
Fixpoint le_bytes (n : nat) (x : Z) : list Z :=
  match n with
  | O => []
  | Datatypes.S n' => Z.land x 0xff :: le_bytes n' (Z.shiftr x 8)
  end.

(** The little-endian value of a sequence of octets. *)
Fixpoint le_word (bs : list Z) : Z :=
  match bs with
  | [] => 0
  | b :: bs' => Z.lor (Z.land b 0xff) (Z.shiftl (le_word bs') 8)
  end.

(** Append the bit 1, zeros up to 56 modulo 64, and the bit length. *)
Definition pad (msg : list Z) : list Z :=
  let len := Z.of_nat (List.length msg) in
  let zeros := Z.to_nat ((55 - len) mod 64) in
  msg ++ [0x80] ++ repeat 0 zeros ++ le_bytes 8 (8 * len).

(** Cut a sequence into runs of [n] elements. *)
Fixpoint chunks {A} (fuel n : nat) (l : list A) : list (list A) :=
  match fuel, l with
  | O, _ | _, [] => []
  | Datatypes.S fuel', _ => firstn n l :: chunks fuel' n (skipn n l)
  end.

Definition state : Type := Z * Z * Z * Z.

Definition init : state := (0x67452301, 0xefcdab89, 0x98badcfe, 0x10325476).

(** One of the 64 operations on a block with message words [M]. *)
Definition round (M : list Z) (st : state) (i : nat) : state :=
  let '(a, b, c, d) := st in
  let zi := Z.of_nat i in
  let '(f, g) :=
    if zi <? 16 then (Z.lor (Z.land b c) (Z.land (not32 b) d), zi)
    else if zi <? 32 then
      (Z.lor (Z.land d b) (Z.land (not32 d) c), (5 * zi + 1) mod 16)
    else if zi <? 48 then (Z.lxor b (Z.lxor c d), (3 * zi + 5) mod 16)
    else (Z.lxor c (Z.lor b (not32 d)), (7 * zi) mod 16) in
  let f' := add32 (add32 (add32 f a) (nth i K 0)) (nth (Z.to_nat g) M 0) in
  (d, add32 b (rotl32 f' (nth i S 0)), b, c).

Definition compress (st : state) (block : list Z) : state :=
  let M := map le_word (chunks 16 4 block) in
  let '(a, b, c, d) := fold_left (round M) (seq 0 64) st in
  let '(a0, b0, c0, d0) := st in
  (add32 a0 a, add32 b0 b, add32 c0 c, add32 d0 d).

Definition digest_bytes (msg : list Z) : list Z :=
  let padded := pad msg in
  let '(a, b, c, d) :=
    fold_left compress (chunks (List.length padded) 64 padded) init in
  le_bytes 4 a ++ le_bytes 4 b ++ le_bytes 4 c ++ le_bytes 4 d.

Definition octets (s : string) : list Z :=
  map (fun a => Z.of_N (N_of_ascii a)) (list_ascii_of_string s).

Definition of_octets (bs : list Z) : string :=
  string_of_list_ascii (map (fun b => ascii_of_N (Z.to_N b)) bs).

(** The sixteen octets of the digest of [s]. *)
Definition md5 (s : string) : string := of_octets (digest_bytes (octets s)).

(** Lower-case hexadecimal rendering, for the test vectors. *)
Definition hex_digit (n : Z) : ascii :=
  ascii_of_N (Z.to_N (if n <? 10 then 48 + n else 87 + n)).

Definition hex (s : string) : string :=
  string_of_list_ascii
    (flat_map (fun b => [hex_digit (Z.shiftr b 4); hex_digit (Z.land b 15)])
       (octets s)).

End MD5.

(** ** Integer and floating-point conversions of the host *)

Module Host.

(** [uint32_t], and so [point_type]. *)
Definition uint32_t (x : Z) : Z := x mod 2 ^ 32.

(** [int]: conversion from an unsigned value keeps the bit pattern. *)
Definition int (x : Z) : Z := (x + 2 ^ 31) mod 2 ^ 32 - 2 ^ 31.

(** [size_t]; converting a negative [long] wraps modulo [2^64]. *)
Definition size_t (x : Z) : Z := x mod 2 ^ 64.

Definition LONG_MIN : Z := - 2 ^ 63.

Definition LONG_MAX : Z := 2 ^ 63 - 1.

(** [std::numeric_limits<double>::epsilon()]. *)
Definition epsilon : float := 0x1p-52%float.

(** Conversion of a [double] to [float]: round to nearest binary32, ties
    to even; overflow gives an infinity. The result is held as the
    binary64 number of the same value. *)
Definition float_of_double (x : float) : float :=
  match Prim2SF x with
  | S754_finite s m e =>
      SF2Prim (binary_normalize 24 128 (cond_Zopp s (Zpos m)) e s)
  | _ => x
  end.

(** Conversion of a [size_t] to [double]: round to nearest, ties to
    even. *)
Definition double_of_size_t (n : Z) : float :=
  SF2Prim (binary_normalize prec emax n 0 false).

(** [::lround]: the nearest integer, halfway cases away from zero, as a
    [long]. For a NaN, an infinity or a value outside [long] the C
    standard leaves the result unspecified; glibc on x86-64 returns
    [LONG_MIN], and so does this definition. *)
Definition lround (x : float) : Z :=
  match Prim2SF x with
  | S754_zero _ => 0
  | S754_finite s m e =>
      let magnitude :=
        if 0 <=? e then Zpos m * 2 ^ e
        else (Zpos m + 2 ^ (- e - 1)) / 2 ^ (- e) in
      let r := cond_Zopp s magnitude in
      if (LONG_MIN <=? r) && (r <=? LONG_MAX) then r else LONG_MIN
  | S754_infinity _ | S754_nan => LONG_MIN
  end.

(** The eight octets of a [size_t] object, as [mhash(thread, &step,
    sizeof(step))] reads them. *)
Definition size_t_octets (n : Z) : string :=
  MD5.of_octets (MD5.le_bytes 8 n).

End Host.

Import Host.

(** ** The data model of [routing.hpp] *)

Definition point_type : Type := Z.

(** [struct element_t { point_type point; std::string value; }]. *)
Record element_t : Type := { point : point_type; value : string }.

(** Modelled from the spec: the header [routing.hpp], which declares
    [element_t] and its comparison operators, is not among the sources. The
    ring is "sorted by point" with "no explicit secondary key", and a lookup
    finds "the smallest point strictly greater than" its target: both
    operators compare points only. *)
Definition element_lt (lhs rhs : element_t) : bool := point lhs <? point rhs.

Definition point_lt_element (lhs : point_type) (rhs : element_t) : bool :=
  lhs <? point rhs.

(** [continuum_t::stored_type], the group, is declared in the same
    header: a map from [std::string] to the weights, whose arithmetic type
    the sources do not show. The constructor uses a weight in two places: as
    the right operand of [init + w] in [boost::accumulate(.., 0.0f)], whose
    result goes back into the [float] accumulator, and as the dividend of
    [it->second / weight], where it is converted to [double]. The type is a
    parameter, given by what these two places do with it. *)
Class WeightType : Type := {
  mapped_type : Type;
  plus_float : float -> mapped_type -> float;
  to_double : mapped_type -> float
}.

(** Weights of type [double], the "strictly positive real weight" of the
    spec: [init + w] is a [double] sum, rounded to [float] when it is
    stored. *)
Definition double_weight : WeightType := {|
  mapped_type := float;
  plus_float := fun init w => float_of_double (init + w)%float;
  to_double := fun w => w
|}.

(** Weights of type [unsigned int], the "positive integer weight" of the
    comment in the constructor: [w] is converted to [float] and the sum is
    a [float] sum. (The sum of two [float]s rounded to [double] and then to
    [float] is their [float] sum.) *)
Definition unsigned_weight : WeightType := {|
  mapped_type := Z;
  plus_float := fun init w =>
    float_of_double
      (init + float_of_double (double_of_size_t (uint32_t w)))%float;
  to_double := fun w => double_of_size_t (uint32_t w)
|}.

(** The map, held as the sequence of its entries in iteration order. *)
Definition stored_type {weights : WeightType} : Type :=
  list (string * mapped_type).

(** The entries of a [std::map] come in strictly ascending key order. *)
Definition string_lt (a b : string) : Prop := String.compare a b = Lt.

Definition is_map {A : Type} (group : list (string * A)) : Prop :=
  StronglySorted string_lt (map fst group).

(** [cocaine::error_t], with its message. *)
Inductive error_t : Type := error (what : string).

(** The records the ring hands to its logging sink, one constructor per
    [COCAINE_LOG_DEBUG] call site, with the arguments of the call. *)
Inductive log_record : Type :=
| populating (length : Z) (weight : float)
| added (steps : Z) (value : string) (percent : float) (quads total : Z)
| population (size : nat) (unique : bool)
| hashed (key : string) (p : point_type) (rv : element_t)
| randomized (p : point_type) (rv : element_t).

(** ** The library services the ring relies on *)

(** [std::sort] with [operator<]: the result is a rearrangement of the
    input in which no element is less than one before it. The order of
    equivalent elements is not specified (the sort is not stable). *)
Definition not_after (a b : element_t) : Prop := element_lt b a = false.

Class StdSort : Type := {
  sort : list element_t -> list element_t;
  sort_permutation : forall l, Permutation l (sort l);
  sort_sorted : forall l, Sorted not_after (sort l)
}.

(** The engine [m_rng] and the distribution [m_distribution] over the whole
    of [point_type]: [seed] is [m_rng.seed(...)], [draw] is
    [m_distribution(m_rng)]. *)
Class RandomEngine : Type := {
  engine : Type;
  seed : Z -> engine;
  draw : engine -> point_type * engine
}.

(** ** [digest_t] and the hash rounds *)

(** [digest.points]: the sixteen octets of [digest.hashed] read as four
    [point_type] objects. *)
Definition digest_points (hashed : string) : list point_type :=
  let octets := MD5.octets hashed in
  map (fun k => MD5.le_word (firstn 4 (skipn (4 * k) octets))) [0; 1; 2; 3]%nat.

(** The four little-endian words of a digest. *)
Definition digest_word (hashed : string) (k : nat) : Z :=
  nth k (digest_points hashed) 0.

(** The digest of the octets of [value] followed by those of [step]. *)
Definition hash_round (value : string) (step : Z) : string :=
  MD5.md5 (value ++ size_t_octets step).

(** The four elements one hash round appends for [value]. *)
Definition quad (value : string) (step : Z) : list element_t :=
  map (fun p => {| point := p; value := value |})
      (digest_points (hash_round value step)).

(** The values [step] takes in [for(step = 0; step < steps; ++step)]. *)
Definition step_range (steps : Z) : list Z :=
  map Z.of_nat (seq 0 (Z.to_nat steps)).

(** ** Searching the ring *)

(** What [nth] falls back on outside a vector; the search never reads it. *)
Definition dummy : element_t := {| point := 0; value := "" |}.

(** [std::upper_bound(first, first + len, val)] as libstdc++ writes it:
    halve the range until it is empty. Positions are offsets from
    [begin()]; the result is the offset of the returned iterator. *)
Equations? upper_bound (v : list element_t) (val : point_type)
    (first len : nat) : nat by wf len lt :=
  upper_bound v val first O := first;
  upper_bound v val first (S n)
    with point_lt_element val
           (nth (first + Nat.div2 (S n)) v dummy) := {
    | true := upper_bound v val first (Nat.div2 (S n));
    | false :=
        upper_bound v val (S (first + Nat.div2 (S n)))
                    (S n - Nat.div2 (S n) - 1) }.
Proof.
  - exact (Nat.lt_div2 (S n) (Nat.lt_0_succ n)).
  - change (S n - Nat.div2 (S n) - 1 < S n)%nat.
    generalize (Nat.div2 (S n)). intros half. lia.
Qed.

(** [it != m_elements.end() ? *it : m_elements.front()]. Calling
    [front()] on an empty vector is undefined: [None]. *)
Definition successor (elements : list element_t) (p : point_type)
    : option element_t :=
  let it := upper_bound elements p 0 (List.length elements) in
  if (it <? List.length elements)%nat then nth_error elements it
  else hd_error elements.

(** [boost::accumulate(digest.points, 0, std::bit_xor<point_type>())]:
    the accumulator is the [int] of the literal [0]. *)
Definition target_point (key : string) : point_type :=
  uint32_t
    (fold_left (fun init p => int (Z.lxor (uint32_t init) p))
               (digest_points (MD5.md5 key)) 0).

(** ** [continuum_t] *)

(** The calls a client can make on a built continuum. *)
Inductive lookup : Type :=
| call_get (key : string)
| call_get_keyless
| call_all.

Section Continuum.

Context {std_sort : StdSort} {random : RandomEngine} {weights : WeightType}.

(** The state of a [continuum_t]: the ring and the engine. (The logging
    sink behind [m_log] is outside: the records are outputs.) *)
Record continuum_t : Type := {
  m_elements : list element_t;
  m_rng : engine
}.

(** [boost::accumulate(group | map_values, 0.0f)]: the accumulator is a
    [float], so every sum is rounded to single precision. *)
Definition total_weight (group : stored_type) : float :=
  fold_left plus_float (map snd group) 0%float.

(** [it->second / weight]. *)
Definition slice_of (weight w : float) : float := (w / weight)%float.

(** [::lround(slice * (64 * length))], a [long]. *)
Definition rounded_steps (length : Z) (weight w : float) : Z :=
  lround (slice_of weight w * double_of_size_t (size_t (64 * length)))%float.

(** [const size_t steps = ::lround(...)]. *)
Definition steps_of (length : Z) (weight w : float) : Z :=
  size_t (rounded_steps length weight w).

(** One iteration of the loop over the group. *)
Definition populate (length : Z) (weight : float)
    (it : string * mapped_type) : list element_t :=
  flat_map (quad (fst it))
           (step_range (steps_of length weight (to_double (snd it)))).

(** The record of the same iteration: [steps], [value],
    [slice * 100.0f], [steps] and [length * 64]. *)
Definition populate_log (length : Z) (weight : float)
    (it : string * mapped_type) : log_record :=
  let steps := steps_of length weight (to_double (snd it)) in
  added steps (fst it)
        (slice_of weight (to_double (snd it)) * 100)%float
        steps (size_t (length * 64)).

(** [boost::adjacent_find(m_elements) == m_elements.end()]. *)
Fixpoint unique (elements : list element_t) : bool :=
  match elements with
  | a :: (b :: _) as rest => negb (point a =? point b) && unique rest
  | _ => true
  end.

Definition invalid_group : error_t :=
  error "the total weight of the routing group must be positive".

(** [continuum_t::continuum_t(log, group)]; [rd] is the number the
    [std::random_device] hands out. *)
Definition continuum_t_ctor (rd : Z) (group : stored_type)
    : list log_record * (error_t + continuum_t) :=
  let length := Z.of_nat (List.length group) in
  let weight := total_weight group in
  if (length =? 0) || (weight <? epsilon)%float then
    ([populating length weight], inl invalid_group)
  else
    let elements := sort (flat_map (populate length weight) group) in
    ([populating length weight]
       ++ map (populate_log length weight) group
       ++ [population (List.length elements) (unique elements)],
     inr {| m_elements := elements; m_rng := seed rd |}).

(** [continuum_t::get(const std::string&) const]. *)
Definition get (c : continuum_t) (key : string)
    : option (string * list log_record) :=
  let p := target_point key in
  match successor (m_elements c) p with
  | Some rv => Some (value rv, [hashed key p rv])
  | None => None
  end.

(** [continuum_t::get() const]; [m_rng] is [mutable]. *)
Definition get_keyless (c : continuum_t)
    : option (string * list log_record * continuum_t) :=
  let '(p, rng) := draw (m_rng c) in
  match successor (m_elements c) p with
  | Some rv =>
      Some (value rv, [randomized p rv],
            {| m_elements := m_elements c; m_rng := rng |})
  | None => None
  end.

(** [continuum_t::all() const]. *)
Definition all (c : continuum_t) : list (point_type * string) :=
  map (fun e => (point e, value e)) (m_elements c).

(** ** The vocabulary of the statements *)

(** The guard of the constructor, and what it builds when the guard lets
    the group through. *)
Definition rejected (group : stored_type) : bool :=
  (Z.of_nat (List.length group) =? 0) || (total_weight group <? epsilon)%float.

Definition built (rd : Z) (group : stored_type) : continuum_t :=
  let length := Z.of_nat (List.length group) in
  {| m_elements := sort (flat_map (populate length (total_weight group)) group);
     m_rng := seed rd |}.


(** The object after one call ([None] when the call is undefined). The
    keyed [get] and [all] are [const] and touch no [mutable] member; the
    keyless [get] leaves the object it returns. *)
Definition after (c : continuum_t) (op : lookup) : option continuum_t :=
  match op with
  | call_get key => option_map (fun _ => c) (get c key)
  | call_get_keyless => option_map snd (get_keyless c)
  | call_all => option_map (fun _ => c) (Some (all c))
  end.

Fixpoint after_calls (c : continuum_t) (ops : list lookup) : option continuum_t :=
  match ops with
  | [] => Some c
  | op :: ops' =>
      match after c op with
      | Some c' => after_calls c' ops'
      | None => None
      end
  end.

End Continuum.

Definition point_le (a b : element_t) : Prop := point a <= point b.

(** The lookup as the specification words it: the first element whose
    point is strictly greater than the target, or else the first element
    of the ring. *)
Definition first_above (elements : list element_t) (p : point_type)
    : option element_t :=
  find (point_lt_element p) elements.

Definition successor_spec (elements : list element_t) (p : point_type)
    : option element_t :=
  match first_above elements p with
  | Some e => Some e
  | None => hd_error elements
  end.

Definition sum_Z (l : list Z) : Z := fold_right Z.add 0 l.

(** The order the claim C5 words: by point, then by value. *)
Definition pair_le (a b : element_t) : Prop :=
  point a < point b
  \/ (point a = point b /\ String.leb (value a) (value b) = true).

(** ** Two conforming sorts, an engine and some groups for the examples *)

(** Insertion sort. [insert_before] puts an element in front of its
    equivalents, which keeps their input order (a stable sort);
    [insert_after] puts it behind them, which reverses it. Both meet the
    contract of [std::sort]. *)
Fixpoint insert_before (x : element_t) (l : list element_t) : list element_t :=
  match l with
  | [] => [x]
  | y :: l' => if element_lt y x then y :: insert_before x l' else x :: l
  end.

Fixpoint insert_after (x : element_t) (l : list element_t) : list element_t :=
  match l with
  | [] => [x]
  | y :: l' => if element_lt x y then x :: l else y :: insert_after x l'
  end.

Definition stable_sort (l : list element_t) : list element_t :=
  fold_right insert_before [] l.

Definition reversing_sort (l : list element_t) : list element_t :=
  fold_right insert_after [] l.

(** The minimal-standard linear congruential engine; a draw returns the
    low 32 bits of two consecutive states. *)
Definition lcg_next (x : Z) : Z := 16807 * x mod 2147483647.

Definition lcg_engine : RandomEngine := {|
  engine := Z;
  seed s := if s mod 2147483647 =? 0 then 1 else s mod 2147483647;
  draw x :=
    let x1 := lcg_next x in
    let x2 := lcg_next x1 in
    (uint32_t (Z.lor (Z.shiftl x1 16) x2), x2)
|}.

Definition alpha_group : stored_type (weights := double_weight) := [("alpha"%string, 1%float)].

Definition skewed_group : stored_type (weights := double_weight) :=
  [("a"%string, 3%float); ("b"%string, 1%float)].

Definition zero_step_group : stored_type (weights := double_weight) :=
  [("a"%string, 1%float); ("b"%string, 0x1p-9%float)].




(** Two members that share the point 1389828892: "bb" gets it in round 21,
    "tb" in round 12. *)
Definition colliding_group : stored_type (weights := double_weight) :=
  [("bb"%string, 1%float); ("tb"%string, 1%float)].

(** Two integer weights that single precision holds while it does not
    hold their sum, 68174084: the accumulated weight is 68174080. The same
    group with weights of type [unsigned int] and of type [double]. *)
Definition rounded_sum_group : stored_type (weights := unsigned_weight) :=
  [("a"%string, 16777216); ("b"%string, 51396868)].

Definition rounded_sum_group_double : stored_type (weights := double_weight) :=
  [("a"%string, 16777216%float); ("b"%string, 51396868%float)].

(** Two real weights whose sum, 25.6, is not a single-precision number. *)
Definition tenth_group : stored_type (weights := double_weight) :=
  [("a"%string, 0x1.999999999999ap-4%float); ("b"%string, 25.5%float)].


(** Two integer weights on which the two weight types accumulate
    different totals: [2^26] and [2^24 + 5]. *)
Definition split_sum_group : stored_type (weights := unsigned_weight) :=
  [("a"%string, 67108864); ("b"%string, 16777221)].

Definition split_sum_group_double : stored_type (weights := double_weight) :=
  [("a"%string, 67108864%float); ("b"%string, 16777221%float)].

(** ** The element count as the specification words it *)

(** "W = sum of the weights": the sum in double precision, with no
    rounding to single precision on the way. *)
Definition spec_total_weight {weights : WeightType} (group : stored_type)
    : float :=
  fold_left (fun sum w => (sum + to_double w)%float) (map snd group) 0%float.

(** "4 * sum over members v of round(w_v / W * 64 * L)", with that [W]. *)
Definition spec_element_count {weights : WeightType} (group : stored_type)
    : Z :=
  let L := Z.of_nat (List.length group) in
  4 * sum_Z (map (fun it => rounded_steps L (spec_total_weight group)
                              (to_double (snd it))) group).

(** * Part II: properties *)

(** ** Test vectors *)

(** The RFC 1321 test suite, and messages on both sides of the one-block
    padding limit. *)
Example md5_empty : MD5.hex (MD5.md5 "") = "d41d8cd98f00b204e9800998ecf8427e"%string.
Proof. vm_compute. reflexivity. Qed.

Example md5_a : MD5.hex (MD5.md5 "a") = "0cc175b9c0f1b6a831c399e269772661"%string.
Proof. vm_compute. reflexivity. Qed.

Example md5_abc : MD5.hex (MD5.md5 "abc") = "900150983cd24fb0d6963f7d28e17f72"%string.
Proof. vm_compute. reflexivity. Qed.

Example md5_56_octets :
  MD5.hex (MD5.md5 "xxxxxxxxxxxxxxxxxxxxxxxxxxxxxxxxxxxxxxxxxxxxxxxxxxxxxxxx")
  = "668a72d5ba17f08e62dabcafad6db14b"%string.
Proof. vm_compute. reflexivity. Qed.

Example float_of_double_tenth :
  Host.float_of_double 0x1.999999999999ap-4%float = 0x1.99999ap-4%float.
Proof. vm_compute. reflexivity. Qed.

Example float_of_double_overflow :
  Host.float_of_double 0x1p128%float = infinity.
Proof. vm_compute. reflexivity. Qed.

Example float_of_double_tie_to_even :
  Host.float_of_double 16777217%float = 16777216%float.
Proof. vm_compute. reflexivity. Qed.

Example float_of_double_subnormal :
  Host.float_of_double 0x1p-150%float = 0%float.
Proof. vm_compute. reflexivity. Qed.

Example double_of_size_t_64 : Host.double_of_size_t 64 = 64%float.
Proof. vm_compute. reflexivity. Qed.

Example lround_half_up : Host.lround 0.5%float = 1.
Proof. vm_compute. reflexivity. Qed.

Example lround_below_half : Host.lround 0x1.fffffffffffffp-2%float = 0.
Proof. vm_compute. reflexivity. Qed.

Example lround_half_away_negative : Host.lround (-2.5)%float = -3.
Proof. vm_compute. reflexivity. Qed.

Example lround_large : Host.lround 0x1p62%float = 2 ^ 62.
Proof. vm_compute. reflexivity. Qed.

Example lround_out_of_range : Host.lround 0x1p63%float = Host.LONG_MIN.
Proof. vm_compute. reflexivity. Qed.

Example hash_round_alpha_0 :
  MD5.hex (hash_round "alpha" 0) = "ab380c5af4bd1f1cfe91b3760ea74ac4"%string.
Proof. vm_compute. reflexivity. Qed.

Example quad_alpha_0 :
  map point (quad "alpha" 0) = [1510750379; 471842292; 1991479806; 3293226766].
Proof. vm_compute. reflexivity. Qed.

Example total_weight_depends_on_the_weight_type :
  total_weight split_sum_group = 83886080%float
  /\ total_weight split_sum_group_double = 83886088%float.
Proof. split; vm_compute; reflexivity. Qed.

Example total_weight_is_single_precision :
  total_weight (weights := double_weight)
    [("a"%string, 0x1.999999999999ap-4%float)] = 0x1.99999ap-4%float.
Proof. vm_compute. reflexivity. Qed.

(** ** The two sorts meet the contract of [std::sort] *)

Lemma insert_before_permutation x l : Permutation (x :: l) (insert_before x l).
Proof.
  induction l as [|y l IH]; simpl; [reflexivity|].
  destruct (element_lt y x); [|reflexivity].
  rewrite perm_swap. now apply perm_skip.
Qed.

Lemma insert_after_permutation x l : Permutation (x :: l) (insert_after x l).
Proof.
  induction l as [|y l IH]; simpl; [reflexivity|].
  destruct (element_lt x y); [reflexivity|].
  rewrite perm_swap. now apply perm_skip.
Qed.

Lemma not_after_of_lt a b : element_lt a b = true -> not_after a b.
Proof. unfold not_after, element_lt. intros H. apply Z.ltb_lt in H. apply Z.ltb_ge. lia. Qed.

Lemma insert_before_sorted x l :
  Sorted not_after l -> Sorted not_after (insert_before x l).
Proof.
  induction l as [|y l IH]; simpl; intros Hs.
  - repeat constructor.
  - destruct (element_lt y x) eqn:E.
    + inversion Hs as [|? ? Hs' Hhd]; subst.
      constructor; [now apply IH|].
      destruct l as [|z l]; simpl.
      * constructor. now apply not_after_of_lt.
      * destruct (element_lt z x); constructor.
        -- now inversion Hhd.
        -- now apply not_after_of_lt.
    + constructor; [assumption|]. constructor. exact E.
Qed.

Lemma insert_after_sorted x l :
  Sorted not_after l -> Sorted not_after (insert_after x l).
Proof.
  induction l as [|y l IH]; simpl; intros Hs.
  - repeat constructor.
  - destruct (element_lt x y) eqn:E.
    + constructor; [assumption|]. constructor. now apply not_after_of_lt.
    + inversion Hs as [|? ? Hs' Hhd]; subst.
      constructor; [now apply IH|].
      destruct l as [|z l]; simpl.
      * constructor. exact E.
      * destruct (element_lt x z); constructor.
        -- exact E.
        -- now inversion Hhd.
Qed.

Lemma stable_sort_permutation l : Permutation l (stable_sort l).
Proof.
  induction l as [|x l IH]; simpl; [constructor|].
  rewrite <- insert_before_permutation. now apply perm_skip.
Qed.

Lemma stable_sort_sorted l : Sorted not_after (stable_sort l).
Proof.
  induction l as [|x l IH]; simpl; [constructor|].
  now apply insert_before_sorted.
Qed.

Definition stable_std_sort : StdSort := {|
  sort := stable_sort;
  sort_permutation := stable_sort_permutation;
  sort_sorted := stable_sort_sorted
|}.

Lemma reversing_sort_permutation l : Permutation l (reversing_sort l).
Proof.
  induction l as [|x l IH]; simpl; [constructor|].
  rewrite <- insert_after_permutation. now apply perm_skip.
Qed.

Lemma reversing_sort_sorted l : Sorted not_after (reversing_sort l).
Proof.
  induction l as [|x l IH]; simpl; [constructor|].
  now apply insert_after_sorted.
Qed.

Definition reversing_std_sort : StdSort := {|
  sort := reversing_sort;
  sort_permutation := reversing_sort_permutation;
  sort_sorted := reversing_sort_sorted
|}.

(** The continuum of a group under the stable sort, the engine seeded
    with [rd]. *)
Definition stable_built {weights : WeightType} (rd : Z) (group : stored_type)
    : continuum_t :=
  built (std_sort := stable_std_sort) (random := lcg_engine) rd group.

(** The continuum of a group under the sort that reverses ties. *)
Definition reversed_built {weights : WeightType} (rd : Z) (group : stored_type)
    : continuum_t :=
  built (std_sort := reversing_std_sort) (random := lcg_engine) rd group.

(** The records of two constructions, checked against the output of the
    constructor compiled with g++ on x86-64. *)
Example ctor_records :
  fst (continuum_t_ctor (std_sort := stable_std_sort) (random := lcg_engine)
         0 skewed_group)
  = [populating 2 4; added 96 "a" 75 96 128; added 32 "b" 25 32 128;
     population 512 true]
  /\ fst (continuum_t_ctor (std_sort := stable_std_sort)
            (random := lcg_engine) 0 rounded_sum_group)
     = [populating 2 68174080;
        added 32 "a" 0x1.89c00189c0019p+4 32 128;
        added 97 "b" 0x1.2d90012750013p+6 97 128;
        population 516 true].
Proof. split; vm_compute; reflexivity. Qed.

(** The ring of the singleton group, checked against an independent
    computation of its MD5 rounds. *)
Example alpha_ring_ends :
  firstn 2 (all (stable_built 0 alpha_group))
  = [(32374199, "alpha"%string); (45786930, "alpha"%string)]
  /\ skipn 254 (all (stable_built 0 alpha_group))
     = [(4256620837, "alpha"%string); (4287325016, "alpha"%string)].
Proof. split; vm_compute; reflexivity. Qed.

(** ** Words and the folded target point *)

Lemma of_octets_length bs : String.length (MD5.of_octets bs) = List.length bs.
Proof.
  unfold MD5.of_octets. induction bs as [|b bs IH]; simpl; [reflexivity|].
  now rewrite IH.
Qed.

(** A digest has sixteen octets. *)
Lemma md5_length s : String.length (MD5.md5 s) = 16%nat.
Proof.
  unfold MD5.md5, MD5.digest_bytes. rewrite of_octets_length.
  destruct (fold_left MD5.compress _ MD5.init) as [[[a b] c] d].
  reflexivity.
Qed.

Lemma lor_below n a b :
  0 <= n -> 0 <= a < 2 ^ n -> 0 <= b < 2 ^ n -> 0 <= Z.lor a b < 2 ^ n.
Proof.
  intros Hn Ha Hb.
  assert (H0 : 0 <= Z.lor a b) by (apply Z.lor_nonneg; lia).
  split; [exact H0|].
  destruct (Z.eq_dec (Z.lor a b) 0) as [->|Hnz]; [lia|].
  apply Z.log2_lt_pow2; [lia|].
  rewrite Z.log2_lor by lia.
  destruct (Z.eq_dec a 0) as [->|Ha0], (Z.eq_dec b 0) as [->|Hb0];
    try (simpl in Hnz; congruence).
  - rewrite Z.max_r by (apply Z.log2_nonneg). apply Z.log2_lt_pow2; lia.
  - rewrite Z.max_l by (apply Z.log2_nonneg). apply Z.log2_lt_pow2; lia.
  - apply Z.max_lub_lt; apply Z.log2_lt_pow2; lia.
Qed.

Lemma lxor_below n a b :
  0 <= n -> 0 <= a < 2 ^ n -> 0 <= b < 2 ^ n -> 0 <= Z.lxor a b < 2 ^ n.
Proof.
  intros Hn Ha Hb.
  assert (H0 : 0 <= Z.lxor a b) by (apply Z.lxor_nonneg; lia).
  split; [exact H0|].
  destruct (Z.eq_dec (Z.lxor a b) 0) as [->|Hnz]; [lia|].
  apply Z.log2_lt_pow2; [lia|].
  eapply Z.le_lt_trans; [apply Z.log2_lxor; lia|].
  destruct (Z.eq_dec a 0) as [->|Ha0], (Z.eq_dec b 0) as [->|Hb0];
    try (simpl in Hnz; congruence).
  - rewrite Z.max_r by (apply Z.log2_nonneg). apply Z.log2_lt_pow2; lia.
  - rewrite Z.max_l by (apply Z.log2_nonneg). apply Z.log2_lt_pow2; lia.
  - apply Z.max_lub_lt; apply Z.log2_lt_pow2; lia.
Qed.

Lemma le_word_below bs :
  0 <= MD5.le_word bs < 2 ^ (8 * Z.of_nat (List.length bs)).
Proof.
  induction bs as [|b bs IH]; [simpl; lia|].
  cbn [MD5.le_word List.length]. rewrite Nat2Z.inj_succ.
  replace (8 * Z.succ (Z.of_nat (List.length bs)))
    with (8 + 8 * Z.of_nat (List.length bs)) by lia.
  set (n := 8 * Z.of_nat (List.length bs)) in *.
  assert (Hn : 0 <= n) by (subst n; lia).
  assert (Hb : 0 <= Z.land b 0xff < 2 ^ 8).
  { change 0xff with (Z.ones 8). rewrite Z.land_ones by lia.
    apply Z.mod_pos_bound. lia. }
  assert (Hpow : 2 ^ (8 + n) = 2 ^ 8 * 2 ^ n) by (apply Z.pow_add_r; lia).
  assert (Hpos : 0 < 2 ^ n) by (apply Z.pow_pos_nonneg; lia).
  apply lor_below; [lia| |].
  - rewrite Hpow. nia.
  - rewrite Z.shiftl_mul_pow2 by lia. rewrite Hpow. nia.
Qed.

(** Every point read from a digest is a 32-bit value. *)
Lemma digest_points_below hashed :
  Forall (fun p => 0 <= p < 2 ^ 32) (digest_points hashed).
Proof.
  unfold digest_points. apply Forall_map, Forall_forall. intros k _.
  pose proof (le_word_below (firstn 4 (skipn (4 * k) (MD5.octets hashed)))) as H.
  pose proof (firstn_le_length 4 (skipn (4 * k) (MD5.octets hashed))) as Hl.
  split; [lia|].
  eapply Z.lt_le_trans; [apply H|].
  apply Z.pow_le_mono_r; lia.
Qed.

Lemma uint32_t_int x : uint32_t (int x) = uint32_t x.
Proof.
  unfold uint32_t, int.
  rewrite Zminus_mod_idemp_l.
  f_equal. lia.
Qed.

Lemma uint32_t_small x : 0 <= x < 2 ^ 32 -> uint32_t x = x.
Proof. intros H. unfold uint32_t. now apply Z.mod_small. Qed.

(** The [int] accumulator of the fold carries the bit pattern of the
    running XOR. *)
Lemma xor_fold_points ps init :
  Forall (fun p => 0 <= p < 2 ^ 32) ps ->
  uint32_t (fold_left (fun init p => int (Z.lxor (uint32_t init) p)) ps init)
  = fold_left Z.lxor ps (uint32_t init).
Proof.
  intros Hps. revert init.
  induction Hps as [|p ps Hp _ IH]; intros init; simpl; [reflexivity|].
  rewrite IH, uint32_t_int.
  f_equal. apply uint32_t_small, lxor_below; [lia| |exact Hp].
  apply Z.mod_pos_bound. lia.
Qed.

Lemma target_point_xor key :
  let h := MD5.md5 key in
  target_point key
  = Z.lxor (Z.lxor (Z.lxor (digest_word h 0) (digest_word h 1))
                   (digest_word h 2)) (digest_word h 3).
Proof.
  intros h. unfold target_point. fold h.
  rewrite xor_fold_points by apply digest_points_below.
  unfold digest_word, digest_points. simpl.
  reflexivity.
Qed.

(** ** Searching a sorted ring *)

Lemma not_after_point_le a b : not_after a b <-> point_le a b.
Proof. unfold not_after, element_lt, point_le. rewrite Z.ltb_ge. reflexivity. Qed.

Lemma Sorted_point_le l : Sorted not_after l -> StronglySorted point_le l.
Proof.
  intros H. apply Sorted_StronglySorted.
  - intros a b c. unfold point_le. lia.
  - induction H as [|a l Hs IH Hhd]; constructor; [exact IH|].
    destruct Hhd; constructor. now apply not_after_point_le.
Qed.

Lemma StronglySorted_nth l :
  StronglySorted point_le l ->
  forall i j, (i <= j < List.length l)%nat ->
  point (nth i l dummy) <= point (nth j l dummy).
Proof.
  induction 1 as [|a l Hs IH Hall]; intros i j Hij; simpl in Hij; [lia|].
  destruct i as [|i], j as [|j]; simpl; try lia.
  - rewrite Forall_forall in Hall. apply Hall, nth_In. lia.
  - apply IH. lia.
Qed.

Lemma StronglySorted_map {A B} (R : A -> A -> Prop) (Q : B -> B -> Prop)
    (f : A -> B) l :
  (forall a b, R a b -> Q (f a) (f b)) ->
  StronglySorted R l -> StronglySorted Q (map f l).
Proof.
  intros Hf. induction 1 as [|a l Hs IH Hall]; simpl; constructor; [exact IH|].
  rewrite Forall_forall in *. intros b Hb. apply in_map_iff in Hb.
  destruct Hb as (x & <- & Hx). apply Hf. now apply Hall.
Qed.

Lemma Sorted_nth_error {A} (R : A -> A -> Prop) l i a b :
  Sorted R l -> nth_error l i = Some a -> nth_error l (S i) = Some b -> R a b.
Proof.
  intros Hs. revert i. induction Hs as [|x l Hs IH Hhd]; intros i Ha Hb.
  - destruct i; discriminate.
  - destruct i as [|i]; simpl in Ha, Hb.
    + injection Ha as ->. destruct l as [|y l]; [discriminate|].
      injection Hb as ->. now inversion Hhd.
    + eapply IH; eauto.
Qed.

(** What [upper_bound] returns on a sorted range: the partition point. *)
Lemma upper_bound_partition v val first len :
  StronglySorted point_le v ->
  (first + len <= List.length v)%nat ->
  let r := upper_bound v val first len in
  (first <= r <= first + len)%nat
  /\ (forall j, (first <= j < r)%nat -> point (nth j v dummy) <= val)
  /\ (forall j, (r <= j < first + len)%nat -> val < point (nth j v dummy)).
Proof.
  intros Hs. funelim (upper_bound v val first len); intros Hlen; cbn zeta.
  - repeat split; intros; lia.
  - set (half := Nat.div2 (S n)) in *.
    assert (Hhalf : (half < S n)%nat)
      by exact (Nat.lt_div2 (S n) (Nat.lt_0_succ n)).
    specialize (H Hs ltac:(lia)). cbn zeta in H.
    destruct H as (Hr & Hlo & Hhi).
    unfold point_lt_element in Heq. apply Z.ltb_lt in Heq.
    repeat split; try lia; [exact Hlo|].
    intros j Hj.
    destruct (Nat.lt_ge_cases j (first + half)) as [Hlt|Hge];
      [apply Hhi; lia|].
    eapply Z.lt_le_trans; [exact Heq|].
    apply StronglySorted_nth; [exact Hs|lia].
  - set (half := Nat.div2 (S n)) in *.
    assert (Hhalf : (half < S n)%nat)
      by exact (Nat.lt_div2 (S n) (Nat.lt_0_succ n)).
    specialize (H Hs ltac:(lia)). cbn zeta in H.
    destruct H as (Hr & Hlo & Hhi).
    unfold point_lt_element in Heq. apply Z.ltb_ge in Heq.
    repeat split; try lia; [|intros j Hj; apply Hhi; lia].
    intros j Hj.
    destruct (Nat.lt_ge_cases j (S (first + half))) as [Hlt|Hge];
      [|apply Hlo; lia].
    eapply Z.le_trans; [|exact Heq].
    apply StronglySorted_nth; [exact Hs|lia].
Qed.

Lemma find_at_partition (f : element_t -> bool) v r :
  (r <= List.length v)%nat ->
  (forall j, (j < r)%nat -> f (nth j v dummy) = false) ->
  (forall j, (r <= j < List.length v)%nat -> f (nth j v dummy) = true) ->
  find f v = if (r <? List.length v)%nat then nth_error v r else None.
Proof.
  revert r. induction v as [|a v IH]; intros r Hr Hlo Hhi; simpl in *.
  - now destruct (r <? 0)%nat.
  - destruct r as [|r].
    + rewrite (Hhi 0%nat) by lia. reflexivity.
    + rewrite (Hlo 0%nat) by lia.
      rewrite (IH r); try lia.
      * change (S r <? S (List.length v))%nat with (r <? List.length v)%nat.
        reflexivity.
      * intros j Hj. apply (Hlo (S j)). lia.
      * intros j Hj. apply (Hhi (S j)). lia.
Qed.

(** On a sorted ring the binary search finds what the specification
    describes. *)
Lemma successor_correct v p :
  StronglySorted point_le v -> successor v p = successor_spec v p.
Proof.
  intros Hs.
  destruct (upper_bound_partition v p 0 (List.length v) Hs (Nat.le_refl _))
    as (Hr & Hlo & Hhi).
  unfold successor, successor_spec, first_above.
  set (r := upper_bound v p 0 (List.length v)) in *.
  rewrite (find_at_partition (point_lt_element p) v r).
  - destruct (r <? List.length v)%nat eqn:E; [|reflexivity].
    apply Nat.ltb_lt in E.
    destruct (nth_error v r) eqn:En; [reflexivity|].
    apply nth_error_None in En. lia.
  - lia.
  - intros j Hj. unfold point_lt_element. apply Z.ltb_ge, Hlo. lia.
  - intros j Hj. unfold point_lt_element. apply Z.ltb_lt, Hhi. lia.
Qed.

(** On a sorted ring the first element above the target has the smallest
    point above it. *)
Lemma first_above_least v p e :
  StronglySorted point_le v ->
  first_above v p = Some e ->
  In e v /\ p < point e
  /\ forall e', In e' v -> p < point e' -> point e <= point e'.
Proof.
  unfold first_above. induction 1 as [|a l Hs IH Hall]; simpl; [discriminate|].
  unfold point_lt_element at 1. destruct (p <? point a) eqn:E.
  - intros [= <-]. apply Z.ltb_lt in E. repeat split; auto.
    intros e' [<-|Hin] _; [lia|].
    rewrite Forall_forall in Hall. now apply Hall.
  - intros Hf. destruct (IH Hf) as (Hin & Hp & Hmin). apply Z.ltb_ge in E.
    repeat split; auto.
    intros e' [<-|Hin'] He'; [lia|now apply Hmin].
Qed.

Lemma first_above_none v p :
  first_above v p = None <-> forall e, In e v -> point e <= p.
Proof.
  unfold first_above. split.
  - intros Hf e Hin. pose proof (find_none _ _ Hf e Hin) as H.
    unfold point_lt_element in H. now apply Z.ltb_ge.
  - intros Hall. destruct (find (point_lt_element p) v) eqn:E; [|reflexivity].
    apply find_some in E. destruct E as [Hin Hlt].
    unfold point_lt_element in Hlt. apply Z.ltb_lt in Hlt.
    specialize (Hall _ Hin). lia.
Qed.

Lemma successor_in v p e : successor v p = Some e -> In e v.
Proof.
  unfold successor.
  destruct (upper_bound v p 0 (List.length v) <? List.length v)%nat.
  - apply nth_error_In.
  - destruct v; simpl; [discriminate|]. intros [= <-]. now left.
Qed.

Lemma successor_total v p : v <> [] -> exists e, successor v p = Some e.
Proof.
  intros Hv. unfold successor.
  destruct (upper_bound v p 0 (List.length v) <? List.length v)%nat eqn:E.
  - apply Nat.ltb_lt in E.
    destruct (nth_error v (upper_bound v p 0 (List.length v))) as [e|] eqn:En;
      [now exists e|].
    apply nth_error_None in En. lia.
  - destruct v as [|a v]; [congruence|]. now exists a.
Qed.

(** ** Groups as maps *)

Lemma string_lt_asym a b : string_lt a b -> ~ string_lt b a.
Proof.
  unfold string_lt. intros Hab Hba.
  rewrite String.compare_antisym, Hba in Hab. discriminate.
Qed.

Lemma string_lt_irrefl a : ~ string_lt a a.
Proof. intros H. exact (string_lt_asym _ _ H H). Qed.

(** A key of a map has one weight. *)
Lemma is_map_unique {A : Type} (group : list (string * A)) k w1 w2 :
  is_map group -> In (k, w1) group -> In (k, w2) group -> w1 = w2.
Proof.
  unfold is_map. induction group as [|[k' w'] group IH]; simpl; [tauto|].
  intros Hs. apply StronglySorted_inv in Hs. destruct Hs as [Hs Hall].
  rewrite Forall_forall in Hall.
  assert (Hfresh : forall w, In (k', w) group -> False).
  { intros w Hin. apply (string_lt_irrefl k'), Hall.
    change k' with (fst (k', w)). now apply in_map. }
  intros [H1|H1] [H2|H2].
  - congruence.
  - injection H1 as -> ->. destruct (Hfresh _ H2).
  - injection H2 as -> ->. destruct (Hfresh _ H1).
  - now apply IH.
Qed.


Lemma zero_step_group_is_map : is_map zero_step_group.
Proof. repeat constructor. Qed.

Lemma skewed_group_is_map : is_map skewed_group.
Proof. repeat constructor. Qed.

(** ** The constructor and the lookups *)

Lemma quad_length v step : List.length (quad v step) = 4%nat.
Proof. reflexivity. Qed.

Lemma quad_value v step e : In e (quad v step) -> value e = v.
Proof.
  unfold quad. rewrite in_map_iff. intros (p & <- & _). reflexivity.
Qed.

Lemma flat_map_length_const {A B} (f : A -> list B) (n : nat) (l : list A) :
  (forall a, List.length (f a) = n) ->
  List.length (flat_map f l) = (n * List.length l)%nat.
Proof.
  intros Hf. induction l as [|a l IH]; simpl; [lia|].
  rewrite length_app, Hf, IH. lia.
Qed.

Lemma size_t_nonneg x : 0 <= size_t x.
Proof. unfold size_t. apply Z.mod_pos_bound. lia. Qed.

Lemma size_t_small x : 0 <= x -> x <= LONG_MAX -> size_t x = x.
Proof.
  unfold size_t, LONG_MAX. intros H0 H1. apply Z.mod_small. lia.
Qed.

Lemma lround_range x : LONG_MIN <= lround x <= LONG_MAX.
Proof.
  unfold lround.
  destruct (Prim2SF x) as [| | |s m e]; try (unfold LONG_MIN, LONG_MAX; lia).
  match goal with |- context [if ?b then _ else _] => destruct b eqn:E end.
  - apply andb_true_iff in E. destruct E as [E1 E2].
    apply Z.leb_le in E1, E2. lia.
  - unfold LONG_MIN, LONG_MAX; lia.
Qed.

Section Facts.

Context {std_sort : StdSort} {random : RandomEngine} {weights : WeightType}.


Lemma populate_length length weight it :
  Z.of_nat (List.length (populate length weight it))
  = 4 * steps_of length weight (to_double (snd it)).
Proof.
  unfold populate.
  rewrite (flat_map_length_const _ 4) by apply quad_length.
  unfold step_range. rewrite length_map, length_seq.
  pose proof (size_t_nonneg (rounded_steps length weight (to_double (snd it)))).
  unfold steps_of. lia.
Qed.

Lemma populate_value length weight it e :
  In e (populate length weight it) -> value e = fst it.
Proof.
  unfold populate. rewrite in_flat_map. intros (step & _ & He).
  now apply quad_value in He.
Qed.

Lemma populate_all_length length weight group :
  Z.of_nat (List.length (flat_map (populate length weight) group))
  = 4 * sum_Z (map (fun it => steps_of length weight (to_double (snd it))) group).
Proof.
  induction group as [|it group IH]; [reflexivity|].
  cbn [flat_map map]. unfold sum_Z in *. cbn [fold_right].
  rewrite length_app, Nat2Z.inj_add, IH, populate_length. lia.
Qed.

Lemma ctor_outcome rd group :
  snd (continuum_t_ctor rd group)
  = if rejected group then inl invalid_group else inr (built rd group).
Proof.
  unfold continuum_t_ctor, rejected, built.
  destruct ((Z.of_nat (List.length group) =? 0)
            || (total_weight group <? epsilon)%float); reflexivity.
Qed.

Lemma ctor_inr rd group c :
  snd (continuum_t_ctor rd group) = inr c ->
  rejected group = false /\ c = built rd group.
Proof.
  rewrite ctor_outcome. destruct (rejected group); [discriminate|].
  intros [= <-]. auto.
Qed.

Lemma ctor_accepts rd group :
  rejected group = false ->
  snd (continuum_t_ctor rd group) = inr (built rd group).
Proof. intros H. rewrite ctor_outcome, H. reflexivity. Qed.

Lemma rejected_iff group :
  rejected group = true
  <-> group = [] \/ (total_weight group <? epsilon)%float = true.
Proof.
  unfold rejected. rewrite orb_true_iff, Z.eqb_eq.
  destruct group as [|it group]; simpl List.length.
  - split; [now left|now left].
  - rewrite Nat2Z.inj_succ.
    split; (intros [H|H]; [|now right]); [lia|discriminate].
Qed.

Lemma built_permutation rd group :
  Permutation
    (flat_map (populate (Z.of_nat (List.length group)) (total_weight group)) group)
    (m_elements (built rd group)).
Proof. apply sort_permutation. Qed.

Lemma built_sorted rd group : StronglySorted point_le (m_elements (built rd group)).
Proof. apply Sorted_point_le, sort_sorted. Qed.

(** Every element of the ring was appended for some entry of the group, in
    one of that entry's hash rounds. *)
Lemma built_provenance rd group e :
  In e (m_elements (built rd group)) ->
  exists w, In (value e, w) group
    /\ 0 < steps_of (Z.of_nat (List.length group)) (total_weight group) (to_double w).
Proof.
  intros He.
  apply (Permutation_in _ (Permutation_sym (built_permutation rd group))) in He.
  apply in_flat_map in He. destruct He as ([v w] & Hin & He).
  pose proof (populate_value _ _ _ _ He) as Hv. simpl in Hv. subst v.
  exists w. split; [exact Hin|].
  unfold populate in He. apply in_flat_map in He.
  destruct He as (step & Hstep & _). unfold step_range in Hstep.
  apply in_map_iff in Hstep. destruct Hstep as (n & _ & Hn).
  apply in_seq in Hn. simpl in Hn. lia.
Qed.

Lemma get_spec c key :
  StronglySorted point_le (m_elements c) ->
  get c key
  = option_map (fun rv => (value rv, [hashed key (target_point key) rv]))
               (successor_spec (m_elements c) (target_point key)).
Proof.
  intros Hs. unfold get. rewrite (successor_correct _ _ Hs).
  now destruct (successor_spec (m_elements c) (target_point key)).
Qed.

Lemma get_value_in c key r : get c key = Some r -> exists e, In e (m_elements c) /\ fst r = value e.
Proof.
  unfold get. destruct (successor (m_elements c) (target_point key)) as [rv|] eqn:E;
    [|discriminate].
  intros [= <-]. exists rv. split; [now apply successor_in in E|reflexivity].
Qed.

Lemma get_keyless_value_in c r :
  get_keyless c = Some r ->
  exists e, In e (m_elements c) /\ fst (fst r) = value e.
Proof.
  unfold get_keyless. destruct (draw (m_rng c)) as [p rng].
  destruct (successor (m_elements c) p) as [rv|] eqn:E; [|discriminate].
  intros [= <-]. exists rv. split; [now apply successor_in in E|reflexivity].
Qed.

Lemma get_total c key : m_elements c <> [] -> exists r, get c key = Some r.
Proof.
  intros Hv. unfold get.
  destruct (successor_total _ (target_point key) Hv) as [e ->]. eauto.
Qed.

Lemma get_keyless_total c : m_elements c <> [] -> exists r, get_keyless c = Some r.
Proof.
  intros Hv. unfold get_keyless. destruct (draw (m_rng c)) as [p rng].
  destruct (successor_total _ p Hv) as [e ->]. eauto.
Qed.

Lemma get_keyless_frame c r :
  get_keyless c = Some r ->
  m_elements (snd r) = m_elements c /\ m_rng (snd r) = snd (draw (m_rng c)).
Proof.
  unfold get_keyless. destruct (draw (m_rng c)) as [p rng].
  destruct (successor (m_elements c) p); [|discriminate].
  intros [= <-]. split; reflexivity.
Qed.

Lemma after_keeps_elements c op c1 :
  after c op = Some c1 ->
  m_elements c1 = m_elements c /\ (op <> call_get_keyless -> c1 = c).
Proof.
  destruct op as [key| |]; simpl.
  - destruct (get c key); simpl; [|discriminate]. intros [= <-]. auto.
  - destruct (get_keyless c) as [r|] eqn:E; simpl; [|discriminate].
    intros [= <-]. split; [apply (get_keyless_frame _ _ E)|congruence].
  - intros [= <-]. auto.
Qed.

(** On a ring that is not empty every sequence of lookups runs to its
    end. *)
Lemma after_calls_total c ops :
  m_elements c <> [] -> exists c', after_calls c ops = Some c'.
Proof.
  revert c. induction ops as [|op ops IH]; intros c Hne; simpl; [eauto|].
  assert (Hop : exists c1, after c op = Some c1).
  { destruct op as [key| |]; simpl.
    - destruct (get_total c key Hne) as [r ->]. simpl. eauto.
    - destruct (get_keyless_total c Hne) as [r ->]. simpl. eauto.
    - eauto. }
  destruct Hop as [c1 Hc1]. rewrite Hc1. apply IH.
  destruct (after_keeps_elements _ _ _ Hc1) as [-> _]. exact Hne.
Qed.

(** The ring is empty exactly when no member gets a hash round. *)
Lemma built_nonempty_iff rd group :
  m_elements (built rd group) <> []
  <-> exists v w, In (v, w) group
        /\ 0 < steps_of (Z.of_nat (List.length group)) (total_weight group)
                        (to_double w).
Proof.
  split.
  - destruct (m_elements (built rd group)) as [|e l] eqn:E; [congruence|].
    intros _. destruct (built_provenance rd group e) as (w & Hin & Hsteps).
    + rewrite E. now left.
    + now exists (value e), w.
  - intros (v & w & Hin & Hsteps) Hempty.
    set (L := Z.of_nat (List.length group)) in *.
    set (W := total_weight group) in *.
    assert (Hq : In {| point := digest_word (hash_round v 0) 0; value := v |}
                    (flat_map (populate L W) group)).
    { apply in_flat_map. exists (v, w). split; [exact Hin|].
      unfold populate. apply in_flat_map. exists 0. split.
      - unfold step_range. simpl fst. simpl snd.
        destruct (Z.to_nat (steps_of L W (to_double w))) as [|n] eqn:En; [lia|].
        simpl. now left.
      - simpl. now left. }
    apply (Permutation_in _ (built_permutation rd group)) in Hq.
    rewrite Hempty in Hq. destruct Hq.
Qed.


End Facts.

(** ** Sorted arrangements of the same elements *)

Lemma sorted_permutation_unique (l1 l2 : list Z) :
  StronglySorted Z.le l1 -> StronglySorted Z.le l2 ->
  Permutation l1 l2 -> l1 = l2.
Proof.
  revert l2. induction l1 as [|a l1 IH]; intros l2 H1 H2 Hp.
  - apply Permutation_nil in Hp. now subst.
  - destruct l2 as [|b l2];
      [apply Permutation_sym, Permutation_nil in Hp; discriminate|].
    apply StronglySorted_inv in H1, H2.
    destruct H1 as [H1 Ha], H2 as [H2 Hb]. rewrite Forall_forall in Ha, Hb.
    assert (Hab : a = b).
    { assert (Hin1 : In a (b :: l2)) by (apply (Permutation_in _ Hp); now left).
      assert (Hin2 : In b (a :: l1))
        by (apply (Permutation_in _ (Permutation_sym Hp)); now left).
      destruct Hin1 as [E|Hin1]; [now symmetry|].
      destruct Hin2 as [E|Hin2]; [exact E|].
      specialize (Ha _ Hin2). specialize (Hb _ Hin1). lia. }
    subst b. f_equal. apply IH; auto.
    now apply Permutation_cons_inv in Hp.
Qed.

Lemma StronglySorted_filter {A} (R : A -> A -> Prop) (f : A -> bool) l :
  StronglySorted R l -> StronglySorted R (filter f l).
Proof.
  induction 1 as [|a l Hs IH Hall]; simpl; [constructor|].
  destruct (f a); [|exact IH]. constructor; [exact IH|].
  rewrite Forall_forall in *. intros b Hb. apply filter_In in Hb.
  apply Hall, Hb.
Qed.

(** Two sorted arrangements of the same elements show the same points in
    the same order. *)
Lemma sorted_rings_same_points r1 r2 :
  StronglySorted point_le r1 -> StronglySorted point_le r2 ->
  Permutation r1 r2 -> map point r1 = map point r2.
Proof.
  intros H1 H2 Hp. apply sorted_permutation_unique.
  - eapply StronglySorted_map; [|exact H1]. intros a b Hab. exact Hab.
  - eapply StronglySorted_map; [|exact H2]. intros a b Hab. exact Hab.
  - now apply Permutation_map.
Qed.

(** When no two elements share a point there is one sorted arrangement. *)
Lemma sorted_rings_equal r1 r2 :
  StronglySorted point_le r1 -> StronglySorted point_le r2 ->
  Permutation r1 r2 -> NoDup (map point r1) -> r1 = r2.
Proof.
  revert r2. induction r1 as [|a r1 IH]; intros r2 H1 H2 Hp Hnd.
  - apply Permutation_nil in Hp. now subst.
  - destruct r2 as [|b r2];
      [apply Permutation_sym, Permutation_nil in Hp; discriminate|].
    pose proof (sorted_rings_same_points _ _ H1 H2 Hp) as Hpts.
    simpl in Hpts. injection Hpts as Hab Hpts.
    assert (E : a = b).
    { assert (Hin : In b (a :: r1))
        by (apply (Permutation_in _ (Permutation_sym Hp)); now left).
      destruct Hin as [E|Hin]; [exact E|]. exfalso.
      simpl in Hnd. apply NoDup_cons_iff in Hnd. apply (proj1 Hnd).
      rewrite Hab. now apply in_map. }
    subst b. f_equal.
    apply StronglySorted_inv in H1, H2. simpl in Hnd.
    apply NoDup_cons_iff in Hnd.
    apply IH; try tauto. now apply Permutation_cons_inv in Hp.
Qed.

(** * Part III: the claims *)

(** C1. For every constructed continuum and every key, [get] folds the
    sixteen-octet MD5 digest of the key into the XOR of its four
    little-endian 32-bit words and returns the value of the first ring element whose point is
    strictly greater than that target, or else of the first element of the
    ring; the element found has the smallest point above the target, and
    none is found exactly when no point of the ring is above the target. *)
Theorem get_returns_successor
    {std_sort : StdSort} {random : RandomEngine} {weights : WeightType}
    rd group c key :
  snd (continuum_t_ctor rd group) = inr c ->
  let h := MD5.md5 key in
  let p := Z.lxor (Z.lxor (Z.lxor (digest_word h 0) (digest_word h 1))
                          (digest_word h 2)) (digest_word h 3) in
  String.length h = 16%nat
  /\ target_point key = p
  /\ get c key
     = option_map (fun rv => (value rv, [hashed key p rv]))
         (match first_above (m_elements c) p with
          | Some e => Some e
          | None => hd_error (m_elements c)
          end)
  /\ (forall e, first_above (m_elements c) p = Some e ->
        In e (m_elements c) /\ p < point e
        /\ forall e', In e' (m_elements c) -> p < point e' -> point e <= point e')
  /\ (first_above (m_elements c) p = None
      <-> forall e, In e (m_elements c) -> point e <= p).
Proof.
  intros Hc h p. apply ctor_inr in Hc. destruct Hc as [_ ->].
  pose proof (built_sorted rd group) as Hs.
  assert (Hp : target_point key = p) by apply target_point_xor.
  split; [apply md5_length|]. split; [exact Hp|]. split; [|split].
  - rewrite (get_spec _ _ Hs), Hp. reflexivity.
  - intros e. now apply first_above_least.
  - apply first_above_none.
Qed.

(** C1 on the ring of the singleton group, for the key "anything". *)
Lemma get_returns_successor_witness :
  target_point "anything" = 1232434832
  /\ get (stable_built 0 alpha_group) "anything"
     = Some ("alpha"%string,
             [hashed "anything" 1232434832
                     {| point := 1284040349; value := "alpha" |}]).
Proof.
  assert (Hacc : rejected alpha_group = false) by (vm_compute; reflexivity).
  destruct (get_returns_successor (std_sort := stable_std_sort)
              (random := lcg_engine) 0 alpha_group
              (stable_built 0 alpha_group) "anything"
              (ctor_accepts 0 alpha_group Hacc))
    as (_ & Hp & Hget & _).
  split.
  - rewrite Hp. vm_compute. reflexivity.
  - rewrite Hget. vm_compute. reflexivity.
Defined.

(** C2, as the code has it. For every group the constructor accepts,
    the ring holds four elements for each hash round: its size is
    [4 * sum steps], where the step count of a member is
    [lround (w / W * (64 * L))] converted to [size_t], [L] being the size
    of the group and [W] the weight as the constructor accumulates it, a
    running sum in single precision. Whenever no rounded count is
    negative, as with positive weights, the size is
    [4 * sum lround (w / W * (64 * L))]. *)
Theorem ring_size
    {std_sort : StdSort} {random : RandomEngine} {weights : WeightType}
    rd group c :
  snd (continuum_t_ctor rd group) = inr c ->
  let L := Z.of_nat (List.length group) in
  let W := total_weight group in
  (forall v step, List.length (quad v step) = 4%nat
                  /\ Forall (fun e => value e = v) (quad v step))
  /\ Z.of_nat (List.length (m_elements c))
     = 4 * sum_Z (map (fun it => steps_of L W (to_double (snd it))) group)
  /\ ((forall v w, In (v, w) group -> 0 <= rounded_steps L W (to_double w)) ->
      Z.of_nat (List.length (m_elements c))
      = 4 * sum_Z (map (fun it => rounded_steps L W (to_double (snd it))) group)).
Proof.
  intros Hc L W. apply ctor_inr in Hc. destruct Hc as [_ ->].
  assert (Hsize : Z.of_nat (List.length (m_elements (built rd group)))
                  = 4 * sum_Z (map (fun it => steps_of L W (to_double (snd it))) group)).
  { rewrite <- (Permutation_length (built_permutation rd group)).
    apply populate_all_length. }
  split.
  { intros v step. split; [apply quad_length|].
    apply Forall_forall. intros e. apply quad_value. }
  split; [exact Hsize|].
  intros Hpos. rewrite Hsize. do 2 f_equal.
  apply map_ext_in. intros [v w] Hin. simpl.
  unfold steps_of. apply size_t_small; [now apply (Hpos v)|].
  apply lround_range.
Qed.

(** C2 on the group of weights 3 and 1: 96 and 32 rounds, 512 elements. *)
Lemma ring_size_witness :
  Z.of_nat (List.length (m_elements (stable_built 0 skewed_group))) = 512
  /\ rounded_steps 2 4 3 = 96 /\ rounded_steps 2 4 1 = 32.
Proof.
  assert (Hacc : rejected skewed_group = false) by (vm_compute; reflexivity).
  destruct (ring_size (std_sort := stable_std_sort) (random := lcg_engine)
              0 skewed_group (stable_built 0 skewed_group)
              (ctor_accepts 0 skewed_group Hacc))
    as (_ & Hsize & _).
  split; [rewrite Hsize|split]; vm_compute; reflexivity.
Defined.

(** C2, the claim's formula. With [W] the sum of the weights, the formula
    gives 512 elements for the weights 16777216 and 51396868, whose sum is
    68174084; the constructor accumulates 68174080 in single precision,
    gives the second member 97 rounds instead of 96, and builds 516
    elements, whether the weights are [unsigned int] or [double]. For the
    real weights 0.1 and 25.5 the formula gives 516 and the constructor
    builds 508. *)
Lemma exact_sum_count_differs :
  (spec_total_weight rounded_sum_group = 68174084%float
   /\ total_weight rounded_sum_group = 68174080%float
   /\ spec_element_count rounded_sum_group = 512
   /\ snd (continuum_t_ctor (std_sort := stable_std_sort)
             (random := lcg_engine) 0 rounded_sum_group)
      = inr (stable_built 0 rounded_sum_group)
   /\ Z.of_nat (List.length (m_elements (stable_built 0 rounded_sum_group)))
      = 516)
  /\ (spec_total_weight rounded_sum_group_double = 68174084%float
      /\ total_weight rounded_sum_group_double = 68174080%float
      /\ spec_element_count rounded_sum_group_double = 512
      /\ snd (continuum_t_ctor (std_sort := stable_std_sort)
                (random := lcg_engine) 0 rounded_sum_group_double)
         = inr (stable_built 0 rounded_sum_group_double)
      /\ Z.of_nat (List.length
                     (m_elements (stable_built 0 rounded_sum_group_double)))
         = 516)
  /\ (spec_element_count tenth_group = 516
      /\ snd (continuum_t_ctor (std_sort := stable_std_sort)
                (random := lcg_engine) 0 tenth_group)
         = inr (stable_built 0 tenth_group)
      /\ Z.of_nat (List.length (m_elements (stable_built 0 tenth_group)))
         = 508).
Proof.
  assert (Hsize : forall (weights : WeightType) (group : stored_type),
            Z.of_nat (List.length (m_elements (stable_built 0 group)))
            = 4 * sum_Z (map (fun it =>
                                steps_of (Z.of_nat (List.length group))
                                         (total_weight group)
                                         (to_double (snd it))) group)).
  { intros weights group. unfold stable_built.
    rewrite <- (Permutation_length
                  (built_permutation (std_sort := stable_std_sort)
                     (random := lcg_engine) 0 group)).
    apply populate_all_length. }
  split; [|split].
  - split; [vm_compute; reflexivity|].
    split; [vm_compute; reflexivity|].
    split; [vm_compute; reflexivity|].
    split; [apply ctor_accepts; vm_compute; reflexivity|].
    rewrite Hsize. vm_compute. reflexivity.
  - split; [vm_compute; reflexivity|].
    split; [vm_compute; reflexivity|].
    split; [vm_compute; reflexivity|].
    split; [apply ctor_accepts; vm_compute; reflexivity|].
    rewrite Hsize. vm_compute. reflexivity.
  - split; [vm_compute; reflexivity|].
    split; [apply ctor_accepts; vm_compute; reflexivity|].
    rewrite Hsize. vm_compute. reflexivity.
Qed.






(** C5, as the code has it. After construction the points of the ring
    are non-decreasing: no element has a smaller point than one before
    it. (The order of two elements that share a point is the one
    [std::sort] leaves.) *)
Theorem ring_sorted_by_point
    {std_sort : StdSort} {random : RandomEngine} {weights : WeightType}
    rd group c :
  snd (continuum_t_ctor rd group) = inr c ->
  StronglySorted point_le (m_elements c)
  /\ forall i j, (i <= j < List.length (m_elements c))%nat ->
       point (nth i (m_elements c) dummy) <= point (nth j (m_elements c) dummy).
Proof.
  intros Hc. apply ctor_inr in Hc. destruct Hc as [_ ->].
  pose proof (built_sorted rd group) as Hs.
  split; [exact Hs|]. now apply StronglySorted_nth.
Qed.

(** C5 on the ring of the singleton group. *)
Lemma ring_sorted_by_point_witness :
  StronglySorted point_le (m_elements (stable_built 0 alpha_group)).
Proof.
  assert (Hacc : rejected alpha_group = false) by (vm_compute; reflexivity).
  apply (ring_sorted_by_point (std_sort := stable_std_sort)
           (random := lcg_engine) 0 alpha_group (stable_built 0 alpha_group)
           (ctor_accepts 0 alpha_group Hacc)).
Defined.

(** C5, the claim's tie rule: under a conforming sort that leaves
    equivalent elements in reverse input order, the ring of "bb" and "tb"
    holds their shared point first for "tb", then for "bb": the sequence
    is not ascending in (point, value). *)
Lemma shared_point_not_value_ordered :
  snd (continuum_t_ctor (std_sort := reversing_std_sort)
         (random := lcg_engine) 0 colliding_group)
  = inr (reversed_built 0 colliding_group)
  /\ nth_error (m_elements (reversed_built 0 colliding_group)) 170
     = Some {| point := 1389828892; value := "tb" |}
  /\ nth_error (m_elements (reversed_built 0 colliding_group)) 171
     = Some {| point := 1389828892; value := "bb" |}
  /\ ~ Sorted pair_le (m_elements (reversed_built 0 colliding_group)).
Proof.
  assert (H170 : nth_error (m_elements (reversed_built 0 colliding_group)) 170
                 = Some {| point := 1389828892; value := "tb" |})
    by (vm_compute; reflexivity).
  assert (H171 : nth_error (m_elements (reversed_built 0 colliding_group)) 171
                 = Some {| point := 1389828892; value := "bb" |})
    by (vm_compute; reflexivity).
  split; [apply ctor_accepts; vm_compute; reflexivity|].
  split; [exact H170|]. split; [exact H171|].
  intros Hs. destruct (Sorted_nth_error _ _ _ _ _ Hs H170 H171) as [Hlt|[_ Hle]].
  - simpl in Hlt. lia.
  - vm_compute in Hle. discriminate.
Qed.

(** C6. The singleton group [{("alpha", 1.0)}] builds a ring of exactly
    256 elements; [get] returns "alpha" for every key, and so does every
    keyless draw; [all()] returns 256 tuples, all of "alpha", in ascending
    order of point. *)
Theorem singleton_alpha
    {std_sort : StdSort} {random : RandomEngine} {weights : WeightType}
    rd :
  exists c,
    snd (continuum_t_ctor rd alpha_group) = inr c
    /\ List.length (m_elements c) = 256%nat
    /\ (forall key, exists log, get c key = Some ("alpha"%string, log))
    /\ (exists log c', get_keyless c = Some ("alpha"%string, log, c'))
    /\ List.length (all c) = 256%nat
    /\ StronglySorted (fun a b => fst a <= fst b) (all c)
    /\ Forall (fun t => snd t = "alpha"%string) (all c).
Proof.
  exists (built rd alpha_group).
  assert (Hacc : rejected alpha_group = false) by (vm_compute; reflexivity).
  assert (Hlen : List.length (m_elements (built rd alpha_group)) = 256%nat).
  { apply Nat2Z.inj.
    rewrite <- (Permutation_length (built_permutation rd alpha_group)).
    rewrite populate_all_length. vm_compute. reflexivity. }
  assert (Hne : m_elements (built rd alpha_group) <> []).
  { intros E. rewrite E in Hlen. discriminate. }
  assert (Hval : forall e, In e (m_elements (built rd alpha_group)) ->
                   value e = "alpha"%string).
  { intros e He. destruct (built_provenance _ _ _ He) as (w & [Hin|[]] & _).
    congruence. }
  split; [rewrite ctor_outcome, Hacc; reflexivity|].
  split; [exact Hlen|].
  split; [|split; [|split; [|split]]].
  - intros key. destruct (get_total _ key Hne) as [[v log] Hr].
    destruct (get_value_in _ _ _ Hr) as (e & He & Hv). simpl in Hv.
    exists log. rewrite Hr, Hv, (Hval _ He). reflexivity.
  - destruct (get_keyless_total _ Hne) as [[[v log] c'] Hr].
    destruct (get_keyless_value_in _ _ Hr) as (e & He & Hv). simpl in Hv.
    exists log, c'. rewrite Hr, Hv, (Hval _ He). reflexivity.
  - unfold all. rewrite length_map. exact Hlen.
  - unfold all. eapply StronglySorted_map; [|apply built_sorted].
    intros a b Hab. exact Hab.
  - unfold all. apply Forall_map, Forall_forall. intros e He. simpl. auto.
Qed.

(** C7. A member whose rounded step count is zero does not stop the
    construction of a group that passes the guard; the ring holds no
    element of that member, and no keyed or keyless lookup returns it. *)
Theorem zero_steps_member_unreachable
    {std_sort : StdSort} {random : RandomEngine} {weights : WeightType}
    rd group v w :
  is_map group ->
  In (v, w) group ->
  (total_weight group <? epsilon)%float = false ->
  rounded_steps (Z.of_nat (List.length group)) (total_weight group) (to_double w) = 0 ->
  exists c,
    snd (continuum_t_ctor rd group) = inr c
    /\ (forall e, In e (m_elements c) -> value e <> v)
    /\ (forall key r, get c key = Some r -> fst r <> v)
    /\ (forall r, get_keyless c = Some r -> fst (fst r) <> v).
Proof.
  intros Hmap Hin Hw Hzero. exists (built rd group).
  assert (Hacc : rejected group = false).
  { destruct (rejected group) eqn:E; [|reflexivity].
    apply rejected_iff in E. destruct E as [->|E]; [destruct Hin|congruence]. }
  assert (Hnone : forall e, In e (m_elements (built rd group)) -> value e <> v).
  { intros e He Hv. destruct (built_provenance _ _ _ He) as (w' & Hin' & Hsteps).
    rewrite Hv in Hin'. rewrite (is_map_unique _ _ _ _ Hmap Hin' Hin) in Hsteps.
    unfold steps_of in Hsteps. rewrite Hzero in Hsteps. discriminate. }
  split; [|split; [exact Hnone|split]].
  - rewrite ctor_outcome, Hacc. reflexivity.
  - intros key r Hr. destruct (get_value_in _ _ _ Hr) as (e & He & ->). auto.
  - intros r Hr. destruct (get_keyless_value_in _ _ Hr) as (e & He & ->). auto.
Qed.

(** C7 on the group of weights 1 and [2^-9]: "b" rounds to no step. *)
Lemma zero_steps_member_unreachable_witness :
  rounded_steps 2 (total_weight zero_step_group) 0x1p-9%float = 0
  /\ forall key r, get (stable_built 0 zero_step_group) key = Some r ->
                   fst r <> "b"%string.
Proof.
  assert (Hzero : rounded_steps (Z.of_nat (List.length zero_step_group))
                    (total_weight zero_step_group) 0x1p-9%float = 0)
    by (vm_compute; reflexivity).
  assert (Hw : (total_weight zero_step_group <? epsilon)%float = false)
    by (vm_compute; reflexivity).
  assert (Hacc : rejected zero_step_group = false) by (vm_compute; reflexivity).
  split; [exact Hzero|].
  destruct (zero_steps_member_unreachable (std_sort := stable_std_sort)
              (random := lcg_engine) 0 zero_step_group "b" 0x1p-9%float
              zero_step_group_is_map (or_intror (or_introl eq_refl)) Hw Hzero)
    as (c & Hc & _ & Hget & _).
  rewrite (ctor_accepts 0 zero_step_group Hacc) in Hc. injection Hc as <-.
  exact Hget.
Defined.




(** C9. No lookup changes the ring: after any sequence of calls of
    [get(key)], [get()] and [all()] the element sequence is the one before
    it; a keyless [get] changes the engine only, to the state its draw
    leaves; [get(key)] and [all()] leave the whole object as it was. *)
Theorem lookups_keep_the_ring {random : RandomEngine} c ops c' :
  after_calls c ops = Some c' ->
  m_elements c' = m_elements c
  /\ (~ In call_get_keyless ops -> c' = c)
  /\ (forall r, get_keyless c = Some r ->
        m_elements (snd r) = m_elements c
        /\ m_rng (snd r) = snd (draw (m_rng c)))
  /\ (forall key c1, after c (call_get key) = Some c1 -> c1 = c)
  /\ (forall c1, after c call_all = Some c1 -> c1 = c).
Proof.
  intros Hrun. pose proof after_keeps_elements as Hstep.
  split; [|split; [|split; [|split]]].
  - revert c Hrun. induction ops as [|op ops IH]; simpl; intros c Hrun.
    + now injection Hrun as <-.
    + destruct (after c op) as [c1|] eqn:E; [|discriminate].
      rewrite (IH _ Hrun). apply (Hstep _ _ _ E).
  - revert c Hrun. induction ops as [|op ops IH]; simpl; intros c Hrun Hno.
    + now injection Hrun as <-.
    + destruct (after c op) as [c1|] eqn:E; [|discriminate].
      rewrite (IH _ Hrun) by tauto.
      apply (Hstep _ _ _ E). intros ->. tauto.
  - apply get_keyless_frame.
  - intros key c1 H. apply (Hstep _ _ _ H). discriminate.
  - intros c1 H. apply (Hstep _ _ _ H). discriminate.
Qed.

(** C9 on four calls on the ring of the singleton group. *)
Lemma lookups_keep_the_ring_witness :
  exists c',
    after_calls (stable_built 7 alpha_group)
      [call_get "k"; call_get_keyless; call_all; call_get_keyless] = Some c'
    /\ m_elements c' = m_elements (stable_built 7 alpha_group).
Proof.
  assert (Hne : m_elements (stable_built 7 alpha_group) <> [])
    by (vm_compute; discriminate).
  destruct (after_calls_total (stable_built 7 alpha_group)
              [call_get "k"; call_get_keyless; call_all; call_get_keyless] Hne)
    as [c' Hrun].
  exists c'. split; [exact Hrun|].
  exact (proj1 (lookups_keep_the_ring (random := lcg_engine) _ _ _ Hrun)).
Defined.

(** C10. Every value a lookup returns, for any key (the empty one
    included) and for any keyless draw, is the identifier of a member of
    the group the continuum was built from; and on a ring that is not
    empty, which is one where some member got a hash round, every lookup
    does return a value. *)
Theorem lookup_returns_a_member
    {std_sort : StdSort} {random : RandomEngine} {weights : WeightType}
    rd group c :
  snd (continuum_t_ctor rd group) = inr c ->
  (forall key r, get c key = Some r -> In (fst r) (map fst group))
  /\ (forall r, get_keyless c = Some r -> In (fst (fst r)) (map fst group))
  /\ (m_elements c <> [] ->
      (forall key, exists r, get c key = Some r)
      /\ exists r, get_keyless c = Some r)
  /\ (m_elements c <> []
      <-> exists v w, In (v, w) group
            /\ 0 < steps_of (Z.of_nat (List.length group))
                            (total_weight group) (to_double w)).
Proof.
  intros Hc. apply ctor_inr in Hc. destruct Hc as [_ ->].
  assert (Hmem : forall e, In e (m_elements (built rd group)) ->
                   In (value e) (map fst group)).
  { intros e He. destruct (built_provenance _ _ _ He) as (w & Hin & _).
    change (value e) with (fst (value e, w)). now apply in_map. }
  split; [|split; [|split]].
  - intros key r Hr. destruct (get_value_in _ _ _ Hr) as (e & He & ->). auto.
  - intros r Hr. destruct (get_keyless_value_in _ _ Hr) as (e & He & ->). auto.
  - intros Hne. split; [intros key; now apply get_total|now apply get_keyless_total].
  - apply built_nonempty_iff.
Qed.

(** C10 on the group of weights 3 and 1, for the key "test-key-42". *)
Lemma lookup_returns_a_member_witness :
  get (stable_built 0 skewed_group) "test-key-42"
  = Some ("b"%string,
          [hashed "test-key-42" 2830990435
                  {| point := 2843701721; value := "b" |}])
  /\ In "b"%string (map fst skewed_group).
Proof.
  assert (Hacc : rejected skewed_group = false) by (vm_compute; reflexivity).
  assert (Hget : get (stable_built 0 skewed_group) "test-key-42"
                 = Some ("b"%string,
                         [hashed "test-key-42" 2830990435
                                 {| point := 2843701721; value := "b" |}]))
    by (vm_compute; reflexivity).
  split; [exact Hget|].
  destruct (lookup_returns_a_member (std_sort := stable_std_sort)
              (random := lcg_engine) 0 skewed_group (stable_built 0 skewed_group)
              (ctor_accepts 0 skewed_group Hacc)) as (Hmem & _).
  exact (Hmem _ _ Hget).
Defined.

(** * Part IV: further properties of the ring *)

(** ** Lists *)

Lemma Permutation_filter_length {A} (f : A -> bool) (l l' : list A) :
  Permutation l l' -> List.length (filter f l) = List.length (filter f l').
Proof.
  induction 1 as [|x l l' _ IH|x y l|l l' l'' _ IH1 _ IH2]; simpl.
  - reflexivity.
  - destruct (f x); simpl; congruence.
  - destruct (f x), (f y); reflexivity.
  - congruence.
Qed.

Lemma Permutation_filter_both {A} (f : A -> bool) (l l' : list A) :
  Permutation l l' -> Permutation (filter f l) (filter f l').
Proof.
  induction 1 as [|x l l' _ IH|x y l|l l' l'' _ IH1 _ IH2]; simpl.
  - constructor.
  - destruct (f x); [now constructor|exact IH].
  - destruct (f x), (f y); try reflexivity. constructor.
  - now transitivity (filter f l').
Qed.

Lemma filter_all {A} (f : A -> bool) (l : list A) :
  (forall a, In a l -> f a = true) -> filter f l = l.
Proof.
  induction l as [|a l IH]; simpl; intros H; [reflexivity|].
  rewrite (H a) by now left. f_equal. apply IH. intros b Hb. apply H. now right.
Qed.

Lemma filter_none {A} (f : A -> bool) (l : list A) :
  (forall a, In a l -> f a = false) -> filter f l = [].
Proof.
  induction l as [|a l IH]; simpl; intros H; [reflexivity|].
  rewrite (H a) by now left. apply IH. intros b Hb. apply H. now right.
Qed.

Lemma filter_flat_map {A B} (f : B -> bool) (g : A -> list B) (l : list A) :
  filter f (flat_map g l) = flat_map (fun a => filter f (g a)) l.
Proof.
  induction l as [|a l IH]; simpl; [reflexivity|].
  now rewrite filter_app, IH.
Qed.

Lemma flat_map_all_nil {A B} (g : A -> list B) (l : list A) :
  (forall a, In a l -> g a = []) -> flat_map g l = [].
Proof.
  induction l as [|a l IH]; simpl; intros H; [reflexivity|].
  rewrite (H a) by now left. apply IH. intros b Hb. apply H. now right.
Qed.

(** ** The elements of one member *)

(** The test "this element belongs to [v]". *)
Definition of_member (v : string) (e : element_t) : bool :=
  String.eqb (value e) v.

Section MemberFacts.

Context {std_sort : StdSort} {random : RandomEngine} {weights : WeightType}.

Lemma populate_of_member length weight it v :
  filter (of_member v) (populate length weight it)
  = if String.eqb (fst it) v then populate length weight it else [].
Proof.
  destruct (String.eqb (fst it) v) eqn:E.
  - apply filter_all. intros e He. unfold of_member.
    now rewrite (populate_value _ _ _ _ He).
  - apply filter_none. intros e He. unfold of_member.
    now rewrite (populate_value _ _ _ _ He).
Qed.

Lemma populate_all_of_member length weight (group : stored_type) v w :
  is_map group -> In (v, w) group ->
  filter (of_member v) (flat_map (populate length weight) group)
  = populate length weight (v, w).
Proof.
  unfold is_map. induction group as [|[k x] group IH]; simpl; [tauto|].
  intros Hs Hin. apply StronglySorted_inv in Hs. destruct Hs as [Hs Hall].
  rewrite Forall_forall in Hall.
  rewrite filter_app, populate_of_member. simpl fst.
  destruct Hin as [E|Hin].
  - injection E as -> ->. rewrite String.eqb_refl.
    rewrite filter_flat_map, flat_map_all_nil; [apply app_nil_r|].
    intros it Hit. rewrite populate_of_member.
    destruct (String.eqb (fst it) v) eqn:E; [|reflexivity].
    apply String.eqb_eq in E. exfalso.
    apply (string_lt_irrefl v). apply Hall. rewrite <- E. now apply in_map.
  - destruct (String.eqb k v) eqn:E.
    + apply String.eqb_eq in E. subst k. exfalso.
      apply (string_lt_irrefl v). apply Hall.
      change v with (fst (v, w)). now apply in_map.
    + simpl. now apply IH.
Qed.

End MemberFacts.

Lemma quad_point v step e : In e (quad v step) -> 0 <= point e < 2 ^ 32.
Proof.
  unfold quad. rewrite in_map_iff. intros (p & <- & Hp). simpl.
  pose proof (digest_points_below (hash_round v step)) as H.
  rewrite Forall_forall in H. now apply H.
Qed.

Lemma target_point_below key : 0 <= target_point key < 2 ^ 32.
Proof. unfold target_point, uint32_t. apply Z.mod_pos_bound. lia. Qed.

Section RingFacts.

Context {std_sort : StdSort} {random : RandomEngine} {weights : WeightType}.

Lemma built_point_below rd group e :
  In e (m_elements (built rd group)) -> 0 <= point e < 2 ^ 32.
Proof.
  intros He.
  apply (Permutation_in _ (Permutation_sym (built_permutation rd group))) in He.
  apply in_flat_map in He. destruct He as (it & _ & He).
  unfold populate in He. apply in_flat_map in He.
  destruct He as (step & _ & He). now apply quad_point in He.
Qed.

Lemma get_keyless_spec c :
  StronglySorted point_le (m_elements c) ->
  get_keyless c
  = option_map
      (fun rv => (value rv, [randomized (fst (draw (m_rng c))) rv],
                  {| m_elements := m_elements c; m_rng := snd (draw (m_rng c)) |}))
      (successor_spec (m_elements c) (fst (draw (m_rng c)))).
Proof.
  intros Hs. unfold get_keyless. destruct (draw (m_rng c)) as [p rng]. simpl.
  rewrite (successor_correct _ _ Hs).
  now destruct (successor_spec (m_elements c) p).
Qed.

End RingFacts.

(** ** The share of a member *)

(** X1. In the ring built from a map, the elements that carry the value
    of a member are exactly the four of each of its hash rounds, wherever
    the sort puts them: for every step below the member's step count, the
    four little-endian words of the MD5 digest of the value followed by
    the octets of the step. Their number is four times the step count; a
    string that is not a member has no element. *)
Theorem member_replicas
    {std_sort : StdSort} {random : RandomEngine} {weights : WeightType}
    rd group c v w :
  snd (continuum_t_ctor rd group) = inr c ->
  is_map group ->
  In (v, w) group ->
  let steps :=
    steps_of (Z.of_nat (List.length group)) (total_weight group)
             (to_double w) in
  Permutation
    (filter (of_member v) (m_elements c))
    (flat_map
       (fun step =>
          map (fun k =>
                 {| point :=
                      MD5.le_word
                        (firstn 4 (skipn (4 * k)
                           (MD5.octets (MD5.md5 (v ++ size_t_octets step)))));
                    value := v |})
              [0; 1; 2; 3]%nat)
       (step_range steps))
  /\ Z.of_nat (List.length (filter (of_member v) (m_elements c))) = 4 * steps
  /\ forall u, ~ In u (map fst group) -> filter (of_member u) (m_elements c) = [].
Proof.
  intros Hc Hmap Hin steps. apply ctor_inr in Hc. destruct Hc as [_ ->].
  assert (Hp : Permutation
                 (filter (of_member v) (m_elements (built rd group)))
                 (populate (Z.of_nat (List.length group)) (total_weight group)
                           (v, w))).
  { rewrite <- (populate_all_of_member _ _ _ _ _ Hmap Hin).
    apply Permutation_filter_both, Permutation_sym, built_permutation. }
  split; [|split].
  - etransitivity; [exact Hp|]. unfold populate, quad, digest_points, hash_round.
    cbn [fst snd]. fold steps.
    erewrite flat_map_ext; [reflexivity|].
    intros step. now rewrite map_map.
  - rewrite (Permutation_length Hp). apply (populate_length _ _ (v, w)).
  - intros u Hu. apply filter_none. intros e He. unfold of_member.
    destruct (String.eqb (value e) u) eqn:E; [|reflexivity].
    apply String.eqb_eq in E. subst u. exfalso. apply Hu.
    destruct (built_provenance _ _ _ He) as (x & Hx & _).
    change (value e) with (fst (value e, x)). now apply in_map.
Qed.

(** X1 on the group of weights 3 and 1: 128 elements of "b", four for
    each of its 32 rounds. *)
Lemma member_replicas_witness :
  Z.of_nat (List.length (filter (of_member "b")
                           (m_elements (stable_built 0 skewed_group)))) = 128
  /\ steps_of 2 (total_weight skewed_group) 1%float = 32.
Proof.
  assert (Hacc : rejected skewed_group = false) by (vm_compute; reflexivity).
  destruct (member_replicas (std_sort := stable_std_sort) (random := lcg_engine)
              0 skewed_group (stable_built 0 skewed_group) "b" 1%float
              (ctor_accepts 0 skewed_group Hacc) skewed_group_is_map
              (or_intror (or_introl eq_refl))) as (_ & Hn & _).
  split; [rewrite Hn|]; vm_compute; reflexivity.
Defined.

(** ** The keyless lookup *)

(** X2. On every constructed continuum the keyless [get] draws one point
    from the engine and returns the value of the first ring element whose
    point is strictly greater than the draw, or else of the first element
    of the ring; the element found has the smallest point above the draw;
    the object it leaves has the same ring and the engine after that one
    draw. *)
Theorem get_keyless_returns_successor
    {std_sort : StdSort} {random : RandomEngine} {weights : WeightType}
    rd group c :
  snd (continuum_t_ctor rd group) = inr c ->
  let p := fst (draw (m_rng c)) in
  get_keyless c
  = option_map
      (fun rv => (value rv, [randomized p rv],
                  {| m_elements := m_elements c; m_rng := snd (draw (m_rng c)) |}))
      (match first_above (m_elements c) p with
       | Some e => Some e
       | None => hd_error (m_elements c)
       end)
  /\ (forall e, first_above (m_elements c) p = Some e ->
        In e (m_elements c) /\ p < point e
        /\ forall e', In e' (m_elements c) -> p < point e' -> point e <= point e')
  /\ (first_above (m_elements c) p = None
      <-> forall e, In e (m_elements c) -> point e <= p).
Proof.
  intros Hc p. apply ctor_inr in Hc. destruct Hc as [_ ->].
  pose proof (built_sorted rd group) as Hs.
  split; [|split].
  - apply (get_keyless_spec _ Hs).
  - intros e. now apply first_above_least.
  - apply first_above_none.
Qed.

(** X2 on the ring of the singleton group, the engine seeded with 7. *)
Lemma get_keyless_returns_successor_witness :
  option_map (fun r => fst (fst r)) (get_keyless (stable_built 7 alpha_group))
  = Some "alpha"%string.
Proof.
  assert (Hacc : rejected alpha_group = false) by (vm_compute; reflexivity).
  destruct (get_keyless_returns_successor (std_sort := stable_std_sort)
              (random := lcg_engine) 7 alpha_group (stable_built 7 alpha_group)
              (ctor_accepts 7 alpha_group Hacc)) as (Hget & _).
  rewrite Hget. vm_compute. reflexivity.
Defined.

(** ** Points are 32-bit values *)

(** X3. Every point of a constructed ring, and so of [all()], lies in
    [0, 2^32), and so does the target point of every key. *)
Theorem ring_points_are_32_bit
    {std_sort : StdSort} {random : RandomEngine} {weights : WeightType}
    rd group c :
  snd (continuum_t_ctor rd group) = inr c ->
  Forall (fun t => 0 <= fst t < 2 ^ 32) (all c)
  /\ forall key, 0 <= target_point key < 2 ^ 32.
Proof.
  intros Hc. apply ctor_inr in Hc. destruct Hc as [_ ->]. split.
  - unfold all. apply Forall_map, Forall_forall. intros e He. simpl.
    now apply (built_point_below rd group).
  - apply target_point_below.
Qed.

(** X3 on the ring of the singleton group. *)
Lemma ring_points_are_32_bit_witness :
  Forall (fun t => 0 <= fst t < 2 ^ 32) (all (stable_built 0 alpha_group)).
Proof.
  assert (Hacc : rejected alpha_group = false) by (vm_compute; reflexivity).
  exact (proj1 (ring_points_are_32_bit (std_sort := stable_std_sort)
                  (random := lcg_engine) 0 alpha_group
                  (stable_built 0 alpha_group)
                  (ctor_accepts 0 alpha_group Hacc))).
Defined.

(** ** The lookup in terms of the points alone *)

(** The point a lookup lands on, read off the sorted list of the ring's
    points: the first point above the target, or else the first point. *)
Definition point_successor (points : list Z) (p : Z) : option Z :=
  match find (fun q => p <? q) points with
  | Some q => Some q
  | None => hd_error points
  end.

Lemma find_map {A B} (f : B -> bool) (g : A -> B) (l : list A) :
  find f (map g l) = option_map g (find (fun a => f (g a)) l).
Proof.
  induction l as [|a l IH]; simpl; [reflexivity|].
  destruct (f (g a)); [reflexivity|exact IH].
Qed.

Lemma find_ext_in {A} (f g : A -> bool) (l : list A) :
  (forall a, In a l -> f a = g a) -> find f l = find g l.
Proof.
  induction l as [|a l IH]; simpl; intros H; [reflexivity|].
  rewrite (H a) by now left. destruct (g a); [reflexivity|].
  apply IH. intros b Hb. apply H. now right.
Qed.

Lemma successor_spec_point l p :
  option_map point (successor_spec l p) = point_successor (map point l) p.
Proof.
  unfold successor_spec, first_above, point_successor.
  rewrite find_map. unfold point_lt_element.
  destruct (find (fun a => p <? point a) l); [reflexivity|].
  now destruct l.
Qed.

Lemma successor_same_point r1 r2 p :
  StronglySorted point_le r1 -> StronglySorted point_le r2 ->
  Permutation r1 r2 ->
  option_map point (successor r1 p) = option_map point (successor r2 p).
Proof.
  intros H1 H2 Hp.
  rewrite (successor_correct _ _ H1), (successor_correct _ _ H2).
  rewrite !successor_spec_point.
  now rewrite (sorted_rings_same_points _ _ H1 H2 Hp).
Qed.

(** A lookup that lands on an element that is kept lands on it again
    after the others are filtered out. *)
Lemma successor_spec_filter (f : element_t -> bool) l p e :
  successor_spec l p = Some e -> f e = true ->
  successor_spec (filter f l) p = Some e.
Proof.
  unfold successor_spec, first_above. intros Hs Hf.
  destruct (find (point_lt_element p) l) as [e'|] eqn:E.
  - injection Hs as ->.
    assert (Hfind : find (point_lt_element p) (filter f l) = Some e).
    { clear -E Hf. induction l as [|a l IH]; simpl in *; [discriminate|].
      destruct (point_lt_element p a) eqn:Ea.
      - injection E as ->. rewrite Hf. simpl. now rewrite Ea.
      - destruct (f a); simpl; [rewrite Ea|]; now apply IH. }
    now rewrite Hfind.
  - assert (Hnone : find (point_lt_element p) (filter f l) = None).
    { destruct (find (point_lt_element p) (filter f l)) as [x|] eqn:Ex;
        [|reflexivity].
      apply find_some in Ex. destruct Ex as [Hin Hx].
      apply filter_In in Hin. now rewrite (find_none _ _ E x (proj1 Hin)) in Hx. }
    rewrite Hnone. destruct l as [|a l]; simpl in *; [discriminate|].
    injection Hs as ->. now rewrite Hf.
Qed.

(** ** Every ring point can be hit *)

(** X4. On a constructed ring, the lookup of the target just below the
    point of an element, [point e - 1] modulo [2^32], lands on that point;
    it lands on [e] itself when no other element shares the point. A
    keyless [get] whose draw is that target returns the value found. *)
Theorem every_ring_point_is_hit
    {std_sort : StdSort} {random : RandomEngine} {weights : WeightType}
    rd group c e :
  snd (continuum_t_ctor rd group) = inr c ->
  In e (m_elements c) ->
  let p := (point e - 1) mod 2 ^ 32 in
  exists rv,
    successor (m_elements c) p = Some rv
    /\ point rv = point e
    /\ ((forall e', In e' (m_elements c) -> point e' = point e -> e' = e) ->
        rv = e)
    /\ (fst (draw (m_rng c)) = p ->
        exists log c', get_keyless c = Some (value rv, log, c')).
Proof.
  intros Hc He p. apply ctor_inr in Hc. destruct Hc as [_ ->].
  pose proof (built_sorted rd group) as Hs.
  pose proof (built_point_below rd group) as Hb.
  assert (Hrv : exists rv, successor_spec (m_elements (built rd group)) p = Some rv
                           /\ In rv (m_elements (built rd group))
                           /\ point rv = point e).
  { unfold successor_spec.
    destruct (first_above (m_elements (built rd group)) p) as [rv|] eqn:E.
    - exists rv. destruct (first_above_least _ _ _ Hs E) as (Hin & Hlt & Hmin).
      split; [reflexivity|]. split; [exact Hin|].
      pose proof (Hb _ He) as Hbe. pose proof (Hb _ Hin) as Hbr.
      assert (Hp : p = point e - 1 \/ (point e = 0 /\ p = 2 ^ 32 - 1)).
      { subst p. destruct (Z.eq_dec (point e) 0) as [E0|E0].
        - right. now rewrite E0.
        - left. apply Z.mod_small. lia. }
      destruct Hp as [Hp|[_ Hp]]; [|lia].
      assert (point rv <= point e) by (apply Hmin; [exact He|lia]). lia.
    - pose proof (proj1 (first_above_none _ _) E) as Hnone.
      destruct (m_elements (built rd group)) as [|a l] eqn:El; [destruct He|].
      exists a. split; [reflexivity|]. split; [now left|].
      pose proof (Hb _ He) as Hbe.
      assert (Hpe : point e <= p) by now apply Hnone.
      assert (Hp : point e = 0).
      { subst p. destruct (Z.eq_dec (point e) 0) as [E0|E0]; [exact E0|].
        rewrite Z.mod_small in Hpe by lia. lia. }
      apply StronglySorted_inv in Hs. destruct Hs as [_ Hall].
      rewrite Forall_forall in Hall.
      assert (Hba : 0 <= point a) by (apply Hb; now left).
      destruct He as [<-|He]; [reflexivity|].
      specialize (Hall _ He). unfold point_le in Hall. lia. }
  destruct Hrv as (rv & Hsucc & Hin & Hpt). exists rv.
  rewrite <- (successor_correct _ _ Hs) in Hsucc.
  split; [exact Hsucc|]. split; [exact Hpt|]. split.
  - intros Huniq. now apply Huniq.
  - intros Hdraw. unfold get_keyless.
    destruct (draw (m_rng (built rd group))) as [q rng]. simpl in Hdraw.
    subst q. rewrite Hsucc. eauto.
Qed.

(** X4 on the first element of the ring of weights 3 and 1. *)
Lemma every_ring_point_is_hit_witness :
  exists rv,
    successor (m_elements (stable_built 0 skewed_group)) 2642814 = Some rv
    /\ point rv = 2642815.
Proof.
  assert (Hacc : rejected skewed_group = false) by (vm_compute; reflexivity).
  assert (Hin : In (nth 0 (m_elements (stable_built 0 skewed_group)) dummy)
                   (m_elements (stable_built 0 skewed_group)))
    by (vm_compute; now left).
  assert (Hp : (point (nth 0 (m_elements (stable_built 0 skewed_group)) dummy)
                - 1) mod 2 ^ 32 = 2642814) by (vm_compute; reflexivity).
  assert (Hq : point (nth 0 (m_elements (stable_built 0 skewed_group)) dummy)
               = 2642815) by (vm_compute; reflexivity).
  pose proof (every_ring_point_is_hit (std_sort := stable_std_sort)
                (random := lcg_engine) 0 skewed_group
                (stable_built 0 skewed_group) _
                (ctor_accepts 0 skewed_group Hacc) Hin) as H.
  cbv zeta in H. rewrite Hp, Hq in H.
  destruct H as (rv & Hsucc & Hpt & _).
  exists rv. split; assumption.
Defined.

(** ** Targets between two ring points *)

Lemma successor_same_arc r p p' :
  StronglySorted point_le r ->
  p <= p' ->
  (forall e, In e r -> ~ (p < point e <= p')) ->
  successor r p = successor r p'.
Proof.
  intros Hs Hle Harc. rewrite !(successor_correct _ _ Hs).
  unfold successor_spec, first_above.
  rewrite (find_ext_in (point_lt_element p) (point_lt_element p')); [reflexivity|].
  intros e He. unfold point_lt_element. specialize (Harc e He).
  destruct (p <? point e) eqn:E1, (p' <? point e) eqn:E2; try reflexivity.
  - apply Z.ltb_lt in E1. apply Z.ltb_ge in E2. lia.
  - apply Z.ltb_ge in E1. apply Z.ltb_lt in E2. lia.
Qed.

(** X5. On a constructed ring two targets with no ring point between
    them, above the lower and not above the higher, land on the same
    element: two keys with such targets get the same value, and a draw of
    such a target gets the value of the key. *)
Theorem lookup_constant_between_ring_points
    {std_sort : StdSort} {random : RandomEngine} {weights : WeightType}
    rd group c p p' :
  snd (continuum_t_ctor rd group) = inr c ->
  p <= p' ->
  (forall e, In e (m_elements c) -> ~ (p < point e <= p')) ->
  successor (m_elements c) p = successor (m_elements c) p'
  /\ (forall k1 k2, target_point k1 = p -> target_point k2 = p' ->
        option_map fst (get c k1) = option_map fst (get c k2))
  /\ (forall k, target_point k = p -> fst (draw (m_rng c)) = p' ->
        option_map fst (get c k)
        = option_map (fun r => fst (fst r)) (get_keyless c)).
Proof.
  intros Hc Hle Harc. apply ctor_inr in Hc. destruct Hc as [_ ->].
  pose proof (successor_same_arc _ _ _ (built_sorted rd group) Hle Harc) as Hs.
  split; [exact Hs|]. split.
  - intros k1 k2 H1 H2. unfold get. rewrite H1, H2, Hs.
    now destruct (successor (m_elements (built rd group)) p').
  - intros k H1 H2. unfold get, get_keyless.
    destruct (draw (m_rng (built rd group))) as [q rng]. simpl in H2. subst q.
    rewrite H1, Hs. now destruct (successor (m_elements (built rd group)) p').
Qed.

(** X5 between the first two points of the ring of weights 3 and 1. *)
Lemma lookup_constant_between_ring_points_witness :
  successor (m_elements (stable_built 0 skewed_group)) 2642815
  = successor (m_elements (stable_built 0 skewed_group)) 5695544.
Proof.
  assert (Hacc : rejected skewed_group = false) by (vm_compute; reflexivity).
  refine (proj1 (lookup_constant_between_ring_points
                   (std_sort := stable_std_sort) (random := lcg_engine)
                   0 skewed_group (stable_built 0 skewed_group)
                   2642815 5695544 (ctor_accepts 0 skewed_group Hacc) _ _)).
  - lia.
  - assert (Hb : forallb (fun e => negb ((2642815 <? point e)
                                         && (point e <=? 5695544)))
                   (m_elements (stable_built 0 skewed_group)) = true)
      by (vm_compute; reflexivity).
    rewrite forallb_forall in Hb. intros e He [H1 H2].
    specialize (Hb e He). apply negb_true_iff, andb_false_iff in Hb.
    destruct Hb as [Hb|Hb]; [apply Z.ltb_ge in Hb|apply Z.leb_gt in Hb]; lia.
Defined.

(** ** The lookup does not depend on the sort *)

(** X6. Two [std::sort] implementations give rings that are
    rearrangements of one another and that show the same points in the
    same order, so every lookup lands on the same point under both; when
    no two elements share a point the two rings are the same sequence and
    every keyed lookup returns the same value and record. *)
Theorem lookup_independent_of_sort
    {sort1 sort2 : StdSort} {random : RandomEngine} {weights : WeightType}
    rd1 rd2 group c1 c2 :
  snd (continuum_t_ctor (std_sort := sort1) rd1 group) = inr c1 ->
  snd (continuum_t_ctor (std_sort := sort2) rd2 group) = inr c2 ->
  Permutation (m_elements c1) (m_elements c2)
  /\ map fst (all c1) = map fst (all c2)
  /\ (forall p, option_map point (successor (m_elements c1) p)
                = option_map point (successor (m_elements c2) p))
  /\ (NoDup (map point (m_elements c1)) ->
      m_elements c1 = m_elements c2
      /\ forall key, get c1 key = get c2 key).
Proof.
  intros H1 H2.
  apply (ctor_inr (std_sort := sort1)) in H1.
  apply (ctor_inr (std_sort := sort2)) in H2.
  destruct H1 as [_ ->], H2 as [_ ->].
  pose proof (built_sorted (std_sort := sort1) rd1 group) as Hs1.
  pose proof (built_sorted (std_sort := sort2) rd2 group) as Hs2.
  assert (Hp : Permutation (m_elements (built (std_sort := sort1) rd1 group))
                           (m_elements (built (std_sort := sort2) rd2 group))).
  { rewrite <- (built_permutation (std_sort := sort1) rd1 group).
    apply (built_permutation (std_sort := sort2)). }
  split; [exact Hp|]. split; [|split].
  - unfold all. rewrite !map_map. simpl.
    apply (sorted_rings_same_points _ _ Hs1 Hs2 Hp).
  - intros p. now apply successor_same_point.
  - intros Hnd.
    assert (E : m_elements (built (std_sort := sort1) rd1 group)
                = m_elements (built (std_sort := sort2) rd2 group))
      by now apply sorted_rings_equal.
    split; [exact E|]. intros key. unfold get. now rewrite E.
Qed.

(** X6 on the two sorts of the examples and the group that has a tie. *)
Lemma lookup_independent_of_sort_witness :
  map fst (all (stable_built 0 colliding_group))
  = map fst (all (reversed_built 0 colliding_group)).
Proof.
  assert (Hacc : rejected colliding_group = false) by (vm_compute; reflexivity).
  exact (proj1 (proj2 (lookup_independent_of_sort
                         (sort1 := stable_std_sort) (sort2 := reversing_std_sort)
                         (random := lcg_engine) 0 0 colliding_group
                         (stable_built 0 colliding_group)
                         (reversed_built 0 colliding_group)
                         (ctor_accepts (std_sort := stable_std_sort)
                                       0 colliding_group Hacc)
                         (ctor_accepts (std_sort := reversing_std_sort)
                                       0 colliding_group Hacc)))).
Defined.

(** ** Removing a member *)

(** The map without the key [v], as [group.erase(v)] leaves it. *)
Definition without {weights : WeightType} (v : string) (group : stored_type)
    : stored_type :=
  filter (fun it => negb (String.eqb (fst it) v)) group.

(** The test "this element does not belong to [v]". *)
Definition not_of_member (v : string) (e : element_t) : bool :=
  negb (of_member v e).

Lemma flat_map_ext_in {A B} (f g : A -> list B) (l : list A) :
  (forall a, In a l -> f a = g a) -> flat_map f l = flat_map g l.
Proof.
  induction l as [|a l IH]; simpl; intros H; [reflexivity|].
  rewrite (H a) by now left. f_equal. apply IH. intros b Hb. apply H. now right.
Qed.

Section RemovalFacts.

Context {std_sort : StdSort} {random : RandomEngine} {weights : WeightType}.

Lemma populate_without length weight v (group : stored_type) :
  flat_map (populate length weight) (without v group)
  = filter (not_of_member v) (flat_map (populate length weight) group).
Proof.
  unfold without. induction group as [|it group IH]; [reflexivity|].
  cbn [filter flat_map]. rewrite filter_app.
  destruct (String.eqb (fst it) v) eqn:E; cbn [negb flat_map]; rewrite IH.
  - rewrite (filter_none (not_of_member v) (populate length weight it));
      [reflexivity|].
    intros e He. unfold not_of_member, of_member.
    now rewrite (populate_value _ _ _ _ He), E.
  - rewrite (filter_all (not_of_member v) (populate length weight it));
      [reflexivity|].
    intros e He. unfold not_of_member, of_member.
    now rewrite (populate_value _ _ _ _ He), E.
Qed.

(** With the step counts of the remaining members unchanged, the smaller
    ring is a rearrangement of the larger one without the elements of the
    removed member. *)
Lemma built_without rd1 rd2 v group :
  (forall u w, In (u, w) (without v group) ->
     steps_of (Z.of_nat (List.length (without v group)))
              (total_weight (without v group)) (to_double w)
     = steps_of (Z.of_nat (List.length group)) (total_weight group)
                (to_double w)) ->
  Permutation (m_elements (built rd2 (without v group)))
              (filter (not_of_member v) (m_elements (built rd1 group))).
Proof.
  intros Hsteps.
  rewrite <- (built_permutation rd2 (without v group)).
  rewrite <- (Permutation_filter_both _ _ _ (built_permutation rd1 group)).
  rewrite <- populate_without.
  erewrite flat_map_ext_in; [reflexivity|].
  intros [u w] Hin. unfold populate. simpl. now rewrite (Hsteps u w Hin).
Qed.

End RemovalFacts.

(** X7. Take a group and the same group without the member [v], and let
    every remaining member have the same step count in both. Then every
    lookup that lands on an element of another member in the larger ring
    lands on the same point in the smaller one, and on the same element
    when no other element shares that point. When no two elements of the
    larger ring share a point, every key that is not served by [v] keeps
    its value and record. *)
Theorem removal_keeps_other_members
    {std_sort : StdSort} {random : RandomEngine} {weights : WeightType}
    rd1 rd2 group v c1 c2 :
  snd (continuum_t_ctor rd1 group) = inr c1 ->
  snd (continuum_t_ctor rd2 (without v group)) = inr c2 ->
  (forall u w, In (u, w) (without v group) ->
     steps_of (Z.of_nat (List.length (without v group)))
              (total_weight (without v group)) (to_double w)
     = steps_of (Z.of_nat (List.length group)) (total_weight group)
                (to_double w)) ->
  (forall p e1, successor (m_elements c1) p = Some e1 -> value e1 <> v ->
     exists e2, successor (m_elements c2) p = Some e2
       /\ point e2 = point e1
       /\ ((forall e, In e (m_elements c1) -> point e = point e1 -> e = e1) ->
           e2 = e1))
  /\ (NoDup (map point (m_elements c1)) ->
      forall key r, get c1 key = Some r -> fst r <> v -> get c2 key = Some r).
Proof.
  intros H1 H2 Hsteps.
  apply ctor_inr in H1, H2. destruct H1 as [_ ->], H2 as [_ ->].
  pose proof (built_sorted rd1 group) as Hs1.
  pose proof (built_sorted rd2 (without v group)) as Hs2.
  pose proof (built_without rd1 rd2 v group Hsteps) as Hp.
  set (r1 := m_elements (built rd1 group)) in *.
  set (r2 := m_elements (built rd2 (without v group))) in *.
  assert (Hsf : StronglySorted point_le (filter (not_of_member v) r1))
    by now apply StronglySorted_filter.
  assert (Hkeep : forall p e1, successor r1 p = Some e1 -> value e1 <> v ->
                    successor_spec (filter (not_of_member v) r1) p = Some e1).
  { intros p e1 Hsucc Hv. apply successor_spec_filter.
    - now rewrite <- (successor_correct _ _ Hs1).
    - unfold not_of_member, of_member.
      destruct (String.eqb (value e1) v) eqn:E; [|reflexivity].
      now apply String.eqb_eq in E. }
  split.
  - intros p e1 Hsucc Hv.
    pose proof (successor_same_point _ _ p Hs2 Hsf Hp) as Hpt.
    rewrite (successor_correct _ _ Hsf), (Hkeep _ _ Hsucc Hv) in Hpt.
    destruct (successor r2 p) as [e2|] eqn:E2; [|discriminate].
    simpl in Hpt. injection Hpt as Hpt.
    exists e2. split; [reflexivity|]. split; [exact Hpt|].
    intros Huniq. apply Huniq; [|exact Hpt].
    apply successor_in in E2.
    apply (Permutation_in _ Hp) in E2. apply filter_In in E2. tauto.
  - intros Hnd key r Hget Hv.
    assert (Hnd' : NoDup (map point r2)).
    { rewrite (sorted_rings_same_points _ _ Hs2 Hsf Hp).
      clear -Hnd. induction r1 as [|a l IH]; simpl in *; [constructor|].
      apply NoDup_cons_iff in Hnd.
      destruct (not_of_member v a); simpl; [|tauto].
      constructor; [|tauto]. intros Hin. apply (proj1 Hnd).
      apply in_map_iff in Hin. destruct Hin as (x & Hx & Hin).
      apply filter_In in Hin. rewrite <- Hx. apply in_map. tauto. }
    assert (E : r2 = filter (not_of_member v) r1)
      by now apply sorted_rings_equal.
    unfold get in *. fold r1 in Hget. fold r2.
    destruct (successor r1 (target_point key)) as [e1|] eqn:E1; [|discriminate].
    injection Hget as <-. simpl in Hv.
    rewrite (successor_correct _ _ Hs2), E, (Hkeep _ _ E1 Hv). reflexivity.
Qed.

Definition three_group : stored_type (weights := double_weight) :=
  [("a"%string, 1%float); ("b"%string, 1%float); ("c"%string, 1%float)].

Fixpoint strictly_increasing (l : list Z) : bool :=
  match l with
  | a :: (b :: _) as rest => (a <? b) && strictly_increasing rest
  | _ => true
  end.

Lemma strictly_increasing_NoDup l : strictly_increasing l = true -> NoDup l.
Proof.
  intros H.
  assert (Hs : StronglySorted Z.lt l).
  { apply Sorted_StronglySorted; [intros a b c; lia|].
    induction l as [|a l IH]; [constructor|].
    destruct l as [|b l]; [repeat constructor|].
    simpl in H. apply andb_true_iff in H. destruct H as [Hab H].
    constructor; [now apply IH|]. constructor. now apply Z.ltb_lt. }
  clear H. induction Hs as [|a l _ IH Hall]; constructor; [|exact IH].
  intros Hin. rewrite Forall_forall in Hall. specialize (Hall a Hin). lia.
Qed.

(** X7 on three members of weight 1, the third removed: each of the two
    others has 64 rounds before and after, and "test-key-42", served by
    "b", stays with "b" at the same point. *)
Lemma removal_keeps_other_members_witness :
  get (stable_built 0 (without "c" three_group)) "test-key-42"
  = Some ("b"%string,
          [hashed "test-key-42" 2830990435
                  {| point := 2833024089; value := "b" |}]).
Proof.
  assert (Hacc1 : rejected three_group = false) by (vm_compute; reflexivity).
  assert (Hacc2 : rejected (without "c" three_group) = false)
    by (vm_compute; reflexivity).
  assert (Hsteps : forall u w, In (u, w) (without "c" three_group) ->
            steps_of (Z.of_nat (List.length (without "c" three_group)))
                     (total_weight (without "c" three_group)) w
            = steps_of (Z.of_nat (List.length three_group))
                       (total_weight three_group) w).
  { intros u w [E|[E|[]]]; injection E as _ <-; vm_compute; reflexivity. }
  assert (Hnd : NoDup (map point (m_elements (stable_built 0 three_group))))
    by (apply strictly_increasing_NoDup; vm_compute; reflexivity).
  assert (Hget : get (stable_built 0 three_group) "test-key-42"
                 = Some ("b"%string,
                         [hashed "test-key-42" 2830990435
                                 {| point := 2833024089; value := "b" |}]))
    by (vm_compute; reflexivity).
  refine (proj2 (removal_keeps_other_members
                   (std_sort := stable_std_sort) (random := lcg_engine)
                   0 0 three_group "c" (stable_built 0 three_group)
                   (stable_built 0 (without "c" three_group))
                   (ctor_accepts 0 three_group Hacc1)
                   (ctor_accepts 0 (without "c" three_group) Hacc2) Hsteps)
                Hnd "test-key-42"%string _ Hget _).
  simpl. discriminate.
Defined.

(** ** The messages of the hash rounds *)

(** The octets one hash round feeds to [mhash]: those of the value,
    then those of the step counter. *)
Definition round_message (value : string) (step : Z) : string :=
  (value ++ size_t_octets step)%string.

Definition is_octet (b : Z) : Prop := 0 <= b < 256.

Lemma le_bytes_octets n x : Forall is_octet (MD5.le_bytes n x).
Proof.
  revert x. induction n as [|n IH]; intros x; simpl; constructor; [|apply IH].
  unfold is_octet. change 0xff with (Z.ones 8). rewrite Z.land_ones by lia.
  apply Z.mod_pos_bound. lia.
Qed.

Lemma le_bytes_length n x : List.length (MD5.le_bytes n x) = n.
Proof. revert x. induction n as [|n IH]; intros x; simpl; [|rewrite IH]; reflexivity. Qed.

Lemma le_bytes_inj n x y :
  MD5.le_bytes n x = MD5.le_bytes n y ->
  x mod 2 ^ (8 * Z.of_nat n) = y mod 2 ^ (8 * Z.of_nat n).
Proof.
  revert x y. induction n as [|n IH]; intros x y H.
  - simpl. now rewrite !Z.mod_1_r.
  - simpl in H. injection H as Hhd Htl. apply IH in Htl.
    change 0xff with (Z.ones 8) in Hhd. rewrite !Z.land_ones in Hhd by lia.
    rewrite !Z.shiftr_div_pow2 in Htl by lia.
    replace (8 * Z.of_nat (S n)) with (8 + 8 * Z.of_nat n) by lia.
    rewrite Z.pow_add_r by lia.
    assert (Hpos : 0 < 2 ^ (8 * Z.of_nat n)) by (apply Z.pow_pos_nonneg; lia).
    rewrite !Z.rem_mul_r by lia. now rewrite Hhd, Htl.
Qed.

Lemma of_octets_inj l1 l2 :
  Forall is_octet l1 -> Forall is_octet l2 ->
  MD5.of_octets l1 = MD5.of_octets l2 -> l1 = l2.
Proof.
  unfold MD5.of_octets. intros H1 H2 E.
  apply (f_equal list_ascii_of_string) in E.
  rewrite !list_ascii_of_string_of_list_ascii in E.
  revert l2 H2 E. induction H1 as [|a l1 Ha _ IH]; intros l2 H2 E.
  - destruct l2; [reflexivity|discriminate].
  - destruct H2 as [|b l2 Hb H2]; [discriminate|].
    simpl in E. injection E as Eab E. f_equal; [|now apply IH].
    apply (f_equal N_of_ascii) in Eab. unfold is_octet in Ha, Hb.
    rewrite !N_ascii_embedding in Eab by lia. lia.
Qed.

Lemma size_t_octets_length n : String.length (size_t_octets n) = 8%nat.
Proof. unfold size_t_octets. now rewrite of_octets_length, le_bytes_length. Qed.

Lemma size_t_octets_inj x y :
  0 <= x < 2 ^ 64 -> 0 <= y < 2 ^ 64 ->
  size_t_octets x = size_t_octets y -> x = y.
Proof.
  intros Hx Hy E. unfold size_t_octets in E.
  apply of_octets_inj, le_bytes_inj in E; try apply le_bytes_octets.
  change (8 * Z.of_nat 8) with 64 in E.
  now rewrite !Z.mod_small in E by assumption.
Qed.

Lemma string_length_append (s t : string) :
  String.length (s ++ t) = (String.length s + String.length t)%nat.
Proof. induction s as [|c s IH]; simpl; [reflexivity|now rewrite IH]. Qed.

Lemma append_inj_suffix (s1 s2 t1 t2 : string) :
  String.length t1 = String.length t2 ->
  (s1 ++ t1)%string = (s2 ++ t2)%string -> s1 = s2 /\ t1 = t2.
Proof.
  intros Hlen. revert s2. induction s1 as [|c s1 IH]; intros [|d s2] E; simpl in E.
  - auto.
  - apply (f_equal String.length) in E. simpl in E.
    rewrite string_length_append in E. lia.
  - apply (f_equal String.length) in E. simpl in E.
    rewrite string_length_append in E. lia.
  - injection E as -> E. destruct (IH _ E) as [-> ->]. auto.
Qed.

Lemma step_range_below steps s :
  In s (step_range (size_t steps)) -> 0 <= s < 2 ^ 64.
Proof.
  unfold step_range. rewrite in_map_iff. intros (n & <- & Hn).
  apply in_seq in Hn. simpl in Hn.
  assert (H : 0 <= size_t steps < 2 ^ 64)
    by (unfold size_t; apply Z.mod_pos_bound; lia).
  lia.
Qed.

(** X8. Every hash round of the constructor digests the octets of the
    member's value followed by the eight octets of the step counter, and
    two rounds that differ in the member or in the step digest different
    octets: a point shared by two rounds is a collision of MD5, never a
    repeated input. *)
Theorem rounds_hash_distinct_messages length weight v w v' w' s s' :
  In s (step_range (steps_of length weight w)) ->
  In s' (step_range (steps_of length weight w')) ->
  (v, s) <> (v', s') ->
  hash_round v s = MD5.md5 (round_message v s)
  /\ hash_round v' s' = MD5.md5 (round_message v' s')
  /\ round_message v s <> round_message v' s'.
Proof.
  intros Hs Hs' Hne. split; [reflexivity|]. split; [reflexivity|].
  unfold steps_of in Hs, Hs'.
  apply step_range_below in Hs, Hs'.
  unfold round_message. intros E.
  apply append_inj_suffix in E; [|now rewrite !size_t_octets_length].
  destruct E as [-> E]. apply size_t_octets_inj in E; try assumption.
  now subst.
Qed.

(** X8 on the first two rounds of a member with two rounds. *)
Lemma rounds_hash_distinct_messages_witness :
  round_message "b" 0 <> round_message "b" 1.
Proof.
  refine (proj2 (proj2 (rounds_hash_distinct_messages
                          2 4 "b" 0x1p-4 "b" 0x1p-4 0 1 _ _ _))).
  - vm_compute. now left.
  - vm_compute. right. now left.
  - intros E. discriminate.
Defined.

(** * Part V: the plugin registry, [src/registry.cpp] *)

(** The registry is taken over what it observes of its surroundings: the
    module loader (libltdl), the file system, and the associative container
    [m_factories] (declared in [registry.hpp], which is not among the
    sources: any container with the lookups below will do). The file
    system does not change while the constructor runs, and memory is
    unbounded. *)

(** One entry of the table [initialize()] returns: [const char* type] and
    the factory, either of which may be null. *)
Record module_info_t (factory : Type) : Type := {
  info_type : option string;
  info_factory : option factory
}.

Arguments info_type {factory}.
Arguments info_factory {factory}.

(** What a [fs::directory_iterator] goes through: the entries of the
    directory, each with the answer of [fs::is_regular(entry)], up to the
    end. The constructor of the iterator, its increment and [is_regular]
    are the throwing overloads: a [listing_error] stands for a throw of the
    iterator at that place, a left answer for a throw of [is_regular], each
    with the message of the [filesystem_error]. *)
Inductive listing : Type :=
| listing_end
| listing_entry (path : string) (regular : string + bool) (rest : listing)
| listing_error (what : string).

(** What the registry sees of the loader and the file system. A left
    answer of [fs_exists] or [fs_is_directory] is a throw of
    [fs::exists(path)] or [fs::is_directory(path)], with its message. A
    left answer of [lt_dlopenadvise] is a null handle, and one of
    [lt_dlsym_initialize] a null [lt_dlsym(plugin, "initialize")], each
    with the text [lt_dlerror()] returns next; a right answer of the
    latter is the table [initialize()] returns, entry by entry. The
    registry reads the table up to its first entry with a null field; a
    list that ends before one stands for a table whose next entry is that
    terminator. *)
Record loader (handle factory : Type) : Type := {
  lt_dlinit_ok : bool;
  plugins : string;
  fs_exists : string -> string + bool;
  fs_is_directory : string -> string + bool;
  directory : string -> listing;
  lt_dlopenadvise : string -> string + handle;
  lt_dlsym_initialize : handle -> string + list (module_info_t factory)
}.

Arguments lt_dlinit_ok {handle factory}.
Arguments plugins {handle factory}.
Arguments fs_exists {handle factory}.
Arguments fs_is_directory {handle factory}.
Arguments directory {handle factory}.
Arguments lt_dlopenadvise {handle factory}.
Arguments lt_dlsym_initialize {handle factory}.

(** The container behind [m_factories]: [insert], [find] (with [end()] as
    [None]) and [size], with the laws every standard associative container
    keeps. *)
Class FactoryMap (factory : Type) : Type := {
  factory_map : Type;
  fm_empty : factory_map;
  fm_insert : string -> factory -> factory_map -> factory_map;
  fm_find : string -> factory_map -> option factory;
  fm_size : factory_map -> nat;
  fm_find_empty : forall k, fm_find k fm_empty = None;
  fm_find_insert : forall k k' f m,
    fm_find k (fm_insert k' f m) <> None
    <-> k = k' \/ fm_find k m <> None;
  fm_size_zero : forall m, fm_size m = 0%nat <-> forall k, fm_find k m = None
}.

(** The calls the registry makes on the loader. *)
Inductive dl_event (handle : Type) : Type :=
| dl_init
| dl_open (plugin : handle)
| dl_close (plugin : handle)
| dl_exit.

Arguments dl_init {handle}.
Arguments dl_open {handle}.
Arguments dl_close {handle}.
Arguments dl_exit {handle}.

(** The records of [m_log], with the arguments of the call. *)
Inductive registry_log : Type :=
| log_invalid_interface (path dlerror : string)
| log_unable_to_load (path dlerror : string)
| log_available_modules (joined : string).

(** What the constructor throws: a [std::runtime_error] of its own, or
    the [filesystem_error] of a file-system call, which is a
    [std::runtime_error] too. Each with its message. *)
Inductive runtime_error : Type :=
| runtime_error_what (what : string)
| filesystem_error (what : string).

Section Registry.

Context {handle factory : Type} {fmap : FactoryMap factory}.

Variable world : loader handle factory.

(** The members of [registry_t] the constructor fills, with the local
    [types], the loader calls made and the records logged so far. *)
Record registry_t : Type := {
  m_plugins : list handle;
  m_factories : factory_map;
  types : list string;
  trace : list (dl_event handle);
  logged : list registry_log
}.

(** [while(info->type && info->factory) { insert; push_back; info++; }]. *)
Fixpoint register (info : list (module_info_t factory)) (r : registry_t)
    : registry_t :=
  match info with
  | {| info_type := Some type; info_factory := Some f |} :: info' =>
      register info'
        {| m_plugins := m_plugins r;
           m_factories := fm_insert type f (m_factories r);
           types := types r ++ [type];
           trace := trace r;
           logged := logged r |}
  | _ => r
  end.

(** The body of the loop over the regular files of the directory. *)
Definition load (r : registry_t) (plugin_path : string) : registry_t :=
  match lt_dlopenadvise world plugin_path with
  | inr plugin =>
      match lt_dlsym_initialize world plugin with
      | inr info =>
          register info
            {| m_plugins := m_plugins r ++ [plugin];
               m_factories := m_factories r;
               types := types r;
               trace := trace r ++ [dl_open plugin];
               logged := logged r |}
      | inl dlerror =>
          {| m_plugins := m_plugins r;
             m_factories := m_factories r;
             types := types r;
             trace := trace r ++ [dl_open plugin; dl_close plugin];
             logged := logged r ++ [log_invalid_interface plugin_path dlerror] |}
      end
  | inl dlerror =>
      {| m_plugins := m_plugins r;
         m_factories := m_factories r;
         types := types r;
         trace := trace r;
         logged := logged r ++ [log_unable_to_load plugin_path dlerror] |}
  end.

(** The loop [while(it != end) { ...; ++it; }] over the [filter_iterator]:
    entries that are not regular files are skipped, a regular file is
    loaded, and a throw of the iterator or of [is_regular] leaves the
    constructor with the loader calls made so far. *)
Fixpoint scan (l : listing) (r : registry_t)
    : runtime_error * list (dl_event handle) + registry_t :=
  match l with
  | listing_end => inr r
  | listing_error what => inl (filesystem_error what, trace r)
  | listing_entry _ (inl what) _ => inl (filesystem_error what, trace r)
  | listing_entry _ (inr false) rest => scan rest r
  | listing_entry path (inr true) rest => scan rest (load r path)
  end.

Definition fresh : registry_t :=
  {| m_plugins := []; m_factories := fm_empty; types := [];
     trace := [dl_init]; logged := [] |}.

(** [boost::algorithm::join(types, ", ")]. *)
Definition joined (l : list string) : string := String.concat ", " l.

(** [registry_t::registry_t(context)]. On a throw the members are gone:
    what is left is the exception and the loader calls made. *)
Definition registry_t_ctor
    : runtime_error * list (dl_event handle) + registry_t :=
  if negb (lt_dlinit_ok world) then
    inl (runtime_error_what "unable to initialize the module loader", [dl_init])
  else
    match fs_exists world (plugins world) with
    | inl what => inl (filesystem_error what, [dl_init])
    | inr false =>
        inl (runtime_error_what (plugins world ++ " does not exist"), [dl_init])
    | inr true =>
        match fs_is_directory world (plugins world) with
        | inl what => inl (filesystem_error what, [dl_init])
        | inr false =>
            inl (runtime_error_what (plugins world ++ " is not a directory"),
                 [dl_init])
        | inr true =>
            match scan (directory world (plugins world)) fresh with
            | inl thrown => inl thrown
            | inr r =>
                if (fm_size (m_factories r) =? 0)%nat then
                  inl (runtime_error_what "no plugins found", trace r)
                else
                  inr {| m_plugins := m_plugins r;
                         m_factories := m_factories r;
                         types := types r;
                         trace := trace r;
                         logged :=
                           logged r
                           ++ [log_available_modules (joined (types r))] |}
            end
        end
    end.

(** [registry_t::~registry_t()]: the loader calls it makes. *)
Definition registry_t_dtor (r : registry_t) : list (dl_event handle) :=
  map dl_close (m_plugins r) ++ [dl_exit].

(** [registry_t::exists(type)]. *)
Definition registry_exists (r : registry_t) (type : string) : bool :=
  match fm_find type (m_factories r) with
  | Some _ => true
  | None => false
  end.

End Registry.

(** ** What the directory offers *)

(** The regular files of a listing that is read to its end. *)
Fixpoint listed (l : listing) : option (list string) :=
  match l with
  | listing_end => Some []
  | listing_error _ => None
  | listing_entry _ (inl _) _ => None
  | listing_entry path (inr regular) rest =>
      option_map (fun files => if regular then path :: files else files)
                 (listed rest)
  end.

Section RegistryFacts.

Context {handle factory : Type} {fmap : FactoryMap factory}.

Variable world : loader handle factory.

(** The types of the entries [register] goes through: those in front of
    the first entry with a null field. *)
Fixpoint offered_types (info : list (module_info_t factory)) : list string :=
  match info with
  | {| info_type := Some type; info_factory := Some _ |} :: info' =>
      type :: offered_types info'
  | _ => []
  end.

(** The types a file offers: none when it does not load or has no
    [initialize]. *)
Definition offered_by (plugin_path : string) : list string :=
  match lt_dlopenadvise world plugin_path with
  | inr plugin =>
      match lt_dlsym_initialize world plugin with
      | inr info => offered_types info
      | inl _ => []
      end
  | inl _ => []
  end.

(** The error record a file leaves: none when it loads and has
    [initialize]. *)
Definition complaint (plugin_path : string) : list registry_log :=
  match lt_dlopenadvise world plugin_path with
  | inr plugin =>
      match lt_dlsym_initialize world plugin with
      | inr _ => []
      | inl dlerror => [log_invalid_interface plugin_path dlerror]
      end
  | inl dlerror => [log_unable_to_load plugin_path dlerror]
  end.

Definition has_initialize (plugin : handle) : bool :=
  match lt_dlsym_initialize world plugin with
  | inr _ => true
  | inl _ => false
  end.

Fixpoint opened (tr : list (dl_event handle)) : list handle :=
  match tr with
  | [] => []
  | dl_open h :: tr' => h :: opened tr'
  | _ :: tr' => opened tr'
  end.

Fixpoint closed (tr : list (dl_event handle)) : list handle :=
  match tr with
  | [] => []
  | dl_close h :: tr' => h :: closed tr'
  | _ :: tr' => closed tr'
  end.

Lemma opened_app tr1 tr2 : opened (tr1 ++ tr2) = opened tr1 ++ opened tr2.
Proof.
  induction tr1 as [|[|h|h|] tr1 IH]; simpl; try exact IH; [reflexivity|].
  now rewrite IH.
Qed.

Lemma closed_app tr1 tr2 : closed (tr1 ++ tr2) = closed tr1 ++ closed tr2.
Proof.
  induction tr1 as [|[|h|h|] tr1 IH]; simpl; try exact IH; [reflexivity|].
  now rewrite IH.
Qed.

Lemma closed_map_dl_close l : closed (map dl_close l) = l.
Proof. induction l as [|h l IH]; simpl; [reflexivity|now rewrite IH]. Qed.

Lemma opened_map_dl_close (l : list handle) : opened (map dl_close l) = [].
Proof. induction l as [|h l IH]; simpl; [reflexivity|exact IH]. Qed.

(** What the registry keeps true from file to file. *)
Record consistent (r : registry_t) : Prop := {
  known_types : forall type,
    fm_find type (m_factories r) <> None <-> In type (types r);
  kept_plugins : m_plugins r = filter has_initialize (opened (trace r));
  closed_plugins :
    closed (trace r)
    = filter (fun h => negb (has_initialize h)) (opened (trace r));
  no_exit : ~ In dl_exit (trace r)
}.

Lemma fresh_consistent : consistent fresh.
Proof.
  constructor; simpl; try reflexivity.
  - intros type. rewrite fm_find_empty. tauto.
  - intros [H|[]]. discriminate.
Qed.

Lemma register_spec info r :
  consistent r ->
  consistent (register info r)
  /\ types (register info r) = types r ++ offered_types info
  /\ trace (register info r) = trace r
  /\ logged (register info r) = logged r.
Proof.
  revert r. induction info as [|[[type|] [f|]] info IH]; intros r Hr; simpl;
    try (rewrite app_nil_r; auto).
  destruct Hr as [Hk Hp Hc Hn].
  match goal with |- consistent (register info ?x) /\ _ => set (r' := x) end.
  assert (Hr' : consistent r').
  { constructor; simpl; auto.
    intros k. rewrite fm_find_insert, in_app_iff, Hk. simpl.
    split; [intros [->|H]; [right; now left|now left]
           |intros [H|[->|[]]]; [now right|now left]]. }
  destruct (IH r' Hr') as (Hr'' & Ht & Htr & Hl).
  split; [exact Hr''|]. rewrite Ht, Htr, Hl. simpl.
  rewrite <- app_assoc. auto.
Qed.

Lemma load_spec r plugin_path :
  consistent r ->
  consistent (load world r plugin_path)
  /\ types (load world r plugin_path) = types r ++ offered_by plugin_path
  /\ logged (load world r plugin_path) = logged r ++ complaint plugin_path.
Proof.
  intros Hr. unfold load, offered_by, complaint.
  destruct (lt_dlopenadvise world plugin_path) as [dlerror|plugin] eqn:Eo.
  - rewrite app_nil_r. split; [|split; reflexivity].
    destruct Hr as [Hk Hp Hc Hn]. constructor; simpl; auto.
  - destruct (lt_dlsym_initialize world plugin) as [dlerror|info] eqn:Ei.
    + rewrite app_nil_r. split; [|split; reflexivity].
      destruct Hr as [Hk Hp Hc Hn]. constructor; simpl; auto.
      * rewrite opened_app, filter_app, <- Hp. simpl.
        unfold has_initialize. rewrite Ei. now rewrite app_nil_r.
      * rewrite closed_app, opened_app, filter_app, <- Hc. simpl.
        unfold has_initialize. now rewrite Ei.
      * rewrite in_app_iff. intros [H|[H|[H|[]]]]; [auto|discriminate..].
    + match goal with |- consistent (register info ?x) /\ _ => set (r' := x) end.
      assert (Hr' : consistent r').
      { destruct Hr as [Hk Hp Hc Hn]. constructor; simpl; auto.
        - rewrite opened_app, filter_app, <- Hp. simpl.
          unfold has_initialize. now rewrite Ei.
        - rewrite closed_app, opened_app, filter_app, <- Hc. simpl.
          unfold has_initialize. rewrite Ei. simpl. now rewrite !app_nil_r.
        - rewrite in_app_iff. intros [H|[H|[]]]; [auto|discriminate]. }
      destruct (register_spec info r' Hr') as (Hr'' & Ht & _ & Hl).
      split; [exact Hr''|]. split; [exact Ht|].
      rewrite Hl. simpl. now rewrite app_nil_r.
Qed.

(** The loop either reads the listing to its end, and then every regular
    file was loaded in turn, or stops at the first throw, with the calls
    made for the files before it. *)
Lemma scan_spec l r :
  consistent r ->
  match scan world l r with
  | inr r' =>
      consistent r'
      /\ exists files,
           listed l = Some files
           /\ types r' = types r ++ flat_map offered_by files
           /\ logged r' = logged r ++ flat_map complaint files
  | inl (thrown, calls) =>
      listed l = None
      /\ (exists what, thrown = filesystem_error what)
      /\ ~ In dl_exit calls
      /\ closed calls
         = filter (fun h => negb (has_initialize h)) (opened calls)
  end.
Proof.
  revert r. induction l as [|path [what|[|]] rest IH|what]; intros r Hr; simpl.
  - split; [exact Hr|]. exists []. simpl. now rewrite !app_nil_r.
  - destruct Hr as [_ _ Hc Hn]. eauto.
  - destruct (load_spec r path Hr) as (Hr' & Ht & Hl).
    specialize (IH _ Hr').
    destruct (scan world rest (load world r path)) as [[thrown calls]|r''].
    + destruct IH as (Hnone & IH). now rewrite Hnone.
    + destruct IH as (Hr'' & files & Hfiles & Ht' & Hl').
      split; [exact Hr''|]. exists (path :: files). rewrite Hfiles. simpl.
      rewrite Ht', Hl', Ht, Hl, <- !app_assoc. auto.
  - specialize (IH _ Hr).
    destruct (scan world rest r) as [[thrown calls]|r''].
    + destruct IH as (Hnone & IH). now rewrite Hnone.
    + destruct IH as (Hr'' & files & Hfiles & Ht' & Hl').
      split; [exact Hr''|]. exists files. rewrite Hfiles. auto.
  - destruct Hr as [_ _ Hc Hn]. eauto.
Qed.

End RegistryFacts.

(** ** The registry's properties *)

Lemma split_by_test {A} (f : A -> bool) (l : list A) :
  Permutation l (filter (fun a => negb (f a)) l ++ filter f l).
Proof.
  induction l as [|a l IH]; simpl; [constructor|].
  destruct (f a); simpl.
  - now apply Permutation_cons_app.
  - now constructor.
Qed.

Section RegistryClaims.

Context {handle factory : Type} {fmap : FactoryMap factory}.

Variable world : loader handle factory.

(** The constructor past its three tests of the loader and the path. *)
Definition loaded (r : registry_t)
    : runtime_error * list (dl_event handle) + registry_t :=
  if (fm_size (m_factories r) =? 0)%nat then
    inl (runtime_error_what "no plugins found", trace r)
  else
    inr {| m_plugins := m_plugins r;
           m_factories := m_factories r;
           types := types r;
           trace := trace r;
           logged := logged r ++ [log_available_modules (joined (types r))] |}.


Lemma ctor_inr_scan r :
  registry_t_ctor world = inr r ->
  lt_dlinit_ok world = true
  /\ fs_exists world (plugins world) = inr true
  /\ fs_is_directory world (plugins world) = inr true
  /\ exists r', scan world (directory world (plugins world)) fresh = inr r'
                /\ loaded r' = inr r.
Proof.
  unfold registry_t_ctor.
  destruct (lt_dlinit_ok world); [|discriminate]. simpl.
  destruct (fs_exists world (plugins world)) as [what|[|]]; try discriminate.
  destruct (fs_is_directory world (plugins world)) as [what|[|]];
    try discriminate.
  destruct (scan world (directory world (plugins world)) fresh)
    as [thrown|r']; [discriminate|].
  intros H. repeat split. exists r'. split; [reflexivity|exact H].
Qed.

Lemma loaded_inr r' r :
  loaded r' = inr r ->
  fm_size (m_factories r') <> 0%nat
  /\ m_plugins r = m_plugins r' /\ m_factories r = m_factories r'
  /\ types r = types r' /\ trace r = trace r'
  /\ logged r = logged r' ++ [log_available_modules (joined (types r'))].
Proof.
  unfold loaded. destruct (fm_size (m_factories r') =? 0)%nat eqn:E;
    [discriminate|].
  apply Nat.eqb_neq in E. intros [= <-]. simpl. auto 10.
Qed.



(** X9. After a successful construction the directory was read to its
    end, and [exists(type)] answers true exactly for the types that some
    regular file of it offers: a file that loads, has [initialize], and
    lists the type in front of the first entry with a null field. The
    records logged are the error records of the files that do not load or
    have no [initialize], in the order of the directory, and then one
    record of the available modules: these same types, file by file and
    entry by entry, joined by ", ". *)
Theorem registry_exists_iff_offered r :
  registry_t_ctor world = inr r ->
  exists files,
    listed (directory world (plugins world)) = Some files
    /\ types r = flat_map (offered_by world) files
    /\ (forall type, registry_exists r type = true <-> In type (types r))
    /\ (forall type,
          registry_exists r type = true
          <-> exists path, In path files /\ In type (offered_by world path))
    /\ logged r
       = flat_map (complaint world) files
         ++ [log_available_modules
               (joined (flat_map (offered_by world) files))].
Proof.
  intros Hc. destruct (ctor_inr_scan r Hc) as (_ & _ & _ & r' & Hscan & Hr).
  pose proof (scan_spec world (directory world (plugins world)) fresh
                (fresh_consistent world)) as Hspec.
  rewrite Hscan in Hspec.
  destruct Hspec as ([Hk _ _ _] & files & Hfiles & Ht & Hl).
  destruct (loaded_inr _ _ Hr) as (_ & _ & Hf & Ht' & _ & Hl').
  simpl in Ht, Hl. exists files. split; [exact Hfiles|].
  assert (Hexists : forall type,
            registry_exists r type = true <-> In type (types r')).
  { intros type. unfold registry_exists. rewrite Hf, <- Hk.
    destruct (fm_find type (m_factories r')); split; congruence. }
  split; [congruence|]. split; [|split].
  - intros type. rewrite Ht'. apply Hexists.
  - intros type. rewrite Hexists, Ht, in_flat_map. reflexivity.
  - rewrite Hl', Hl, Ht. reflexivity.
Qed.


(** X11. The loader calls of a registry's life. A library without
    [initialize] is closed at once, one with [initialize] is kept in
    [m_plugins]. After a successful construction and the destructor, the
    handles closed are the handles opened, each as often as it was opened,
    and [lt_dlexit] is the last call and the only one. When the
    constructor throws, the destructor does not run: [lt_dlexit] is not
    called, and the libraries closed are only those without [initialize]. *)
Theorem registry_handles_accounted :
  (forall r, registry_t_ctor world = inr r ->
     m_plugins r = filter (has_initialize world) (opened (trace r))
     /\ Permutation (opened (trace r ++ registry_t_dtor r))
                    (closed (trace r ++ registry_t_dtor r))
     /\ ~ In dl_exit (trace r)
     /\ exists calls, trace r ++ registry_t_dtor r = calls ++ [dl_exit]
                      /\ ~ In dl_exit calls)
  /\ (forall e calls, registry_t_ctor world = inl (e, calls) ->
        ~ In dl_exit calls
        /\ closed calls
           = filter (fun h => negb (has_initialize world h)) (opened calls)).
Proof.
  pose proof (scan_spec world (directory world (plugins world)) fresh
                (fresh_consistent world)) as Hspec.
  split.
  - intros r Hr. destruct (ctor_inr_scan r Hr) as (_ & _ & _ & r' & Hscan & Hl).
    rewrite Hscan in Hspec. destruct Hspec as ([_ Hp Hc Hn] & _).
    destruct (loaded_inr _ _ Hl) as (_ & Hm & _ & _ & Ht & _).
    rewrite <- Hm, <- Ht in *. clear Hm Ht.
    split; [exact Hp|]. split; [|split; [exact Hn|]].
    + unfold registry_t_dtor.
      rewrite opened_app, closed_app, opened_app, closed_app.
      rewrite opened_map_dl_close, closed_map_dl_close. simpl.
      rewrite !app_nil_r, Hc, Hp. apply split_by_test.
    + exists (trace r ++ map dl_close (m_plugins r)).
      unfold registry_t_dtor. rewrite app_assoc. split; [reflexivity|].
      rewrite in_app_iff, in_map_iff.
      intros [H|(h & H & _)]; [auto|discriminate].
  - unfold registry_t_ctor. intros e calls.
    assert (Hinit : ~ In dl_exit [@dl_init handle]
                    /\ closed [@dl_init handle]
                       = filter (fun h => negb (has_initialize world h))
                           (opened [@dl_init handle])).
    { split; [intros [H|[]]; discriminate|reflexivity]. }
    destruct (negb (lt_dlinit_ok world)); [intros [= <- <-]; exact Hinit|].
    destruct (fs_exists world (plugins world)) as [what|[|]];
      try (intros [= <- <-]; exact Hinit).
    destruct (fs_is_directory world (plugins world)) as [what|[|]];
      try (intros [= <- <-]; exact Hinit).
    destruct (scan world (directory world (plugins world)) fresh)
      as [[thrown calls']|r'].
    + intros [= <- <-]. tauto.
    + destruct Hspec as ([_ _ Hc Hn] & _).
      destruct (fm_size (m_factories r') =? 0)%nat; [|discriminate].
      intros [= <- <-]. split; [exact Hn|exact Hc].
Qed.

End RegistryClaims.

(** ** A container and plugin directories for the examples *)

(** [std::map] as the sequence of its entries: [insert] leaves an
    existing key as it is. *)
Definition assoc_find {factory} (k : string) (m : list (string * factory))
    : option factory :=
  option_map snd (find (fun kv => String.eqb (fst kv) k) m).

Definition assoc_insert {factory} (k : string) (f : factory)
    (m : list (string * factory)) : list (string * factory) :=
  match assoc_find k m with
  | Some _ => m
  | None => m ++ [(k, f)]
  end.

Lemma assoc_find_app {factory} k (m1 m2 : list (string * factory)) :
  assoc_find k (m1 ++ m2)
  = match assoc_find k m1 with
    | Some f => Some f
    | None => assoc_find k m2
    end.
Proof.
  unfold assoc_find. induction m1 as [|[k' f] m1 IH]; simpl; [reflexivity|].
  destruct (String.eqb k' k); [reflexivity|exact IH].
Qed.

Lemma assoc_find_insert {factory} k k' (f : factory) m :
  assoc_find k (assoc_insert k' f m) <> None
  <-> k = k' \/ assoc_find k m <> None.
Proof.
  unfold assoc_insert. destruct (assoc_find k' m) as [g|] eqn:E.
  - split; [auto|]. intros [->|H]; [congruence|exact H].
  - rewrite assoc_find_app. destruct (assoc_find k m) as [g|] eqn:Ek.
    + split; [right|]; congruence.
    + unfold assoc_find at 1. simpl. destruct (String.eqb k' k) eqn:Ekk; simpl.
      * apply String.eqb_eq in Ekk. split; [auto|congruence].
      * apply String.eqb_neq in Ekk.
        split; [congruence|intros [->|H]; congruence].
Qed.

Lemma assoc_size_zero {factory} (m : list (string * factory)) :
  List.length m = 0%nat <-> forall k, assoc_find k m = None.
Proof.
  destruct m as [|[k f] m]; simpl.
  - split; reflexivity.
  - split; [discriminate|]. intros H. specialize (H k).
    unfold assoc_find in H. simpl in H. rewrite String.eqb_refl in H.
    discriminate.
Qed.

Definition assoc_map (factory : Type) : FactoryMap factory := {|
  factory_map := list (string * factory);
  fm_empty := [];
  fm_insert := assoc_insert;
  fm_find := assoc_find;
  fm_size := @List.length (string * factory);
  fm_find_empty := fun k => eq_refl;
  fm_find_insert := assoc_find_insert;
  fm_size_zero := assoc_size_zero
|}.

(** A loader with two libraries: "a.so" offers "perl" and "python",
    "b.so" has no [initialize]; nothing else loads. Handles and factories
    are numbers. *)
Definition example_dlopen (path : string) : string + nat :=
  if String.eqb path "/usr/lib/cocaine/a.so" then inr 1%nat
  else if String.eqb path "/usr/lib/cocaine/b.so" then inr 2%nat
  else inl "file not found"%string.

Definition example_dlsym (plugin : nat)
    : string + list (module_info_t nat) :=
  if Nat.eqb plugin 1 then
    inr [ {| info_type := Some "perl"%string; info_factory := Some 10%nat |};
          {| info_type := Some "python"%string; info_factory := Some 11%nat |} ]
  else inl "undefined symbol: initialize"%string.

Definition directory_world (l : listing) : loader nat nat := {|
  lt_dlinit_ok := true;
  plugins := "/usr/lib/cocaine";
  fs_exists := fun _ => inr true;
  fs_is_directory := fun _ => inr true;
  directory := fun _ => l;
  lt_dlopenadvise := example_dlopen;
  lt_dlsym_initialize := example_dlsym
|}.

(** A directory with the plugin, a file that does not load, a
    subdirectory, and the library without [initialize]. *)
Definition example_world : loader nat nat :=
  directory_world
    (listing_entry "/usr/lib/cocaine/a.so" (inr true)
       (listing_entry "/usr/lib/cocaine/README" (inr true)
          (listing_entry "/usr/lib/cocaine/old" (inr false)
             (listing_entry "/usr/lib/cocaine/b.so" (inr true)
                listing_end)))).


(** A directory whose iterator throws after the plugin. *)
Definition unreadable_world : loader nat nat :=
  directory_world
    (listing_entry "/usr/lib/cocaine/a.so" (inr true)
       (listing_error "boost::filesystem::directory_iterator::operator++")).

(** A library with [initialize] whose table is empty. *)
Definition hollow_world : loader nat nat := {|
  lt_dlinit_ok := true;
  plugins := "/usr/lib/cocaine";
  fs_exists := fun _ => inr true;
  fs_is_directory := fun _ => inr true;
  directory := fun _ =>
    listing_entry "/usr/lib/cocaine/c.so" (inr true) listing_end;
  lt_dlopenadvise := fun _ => inr 3%nat;
  lt_dlsym_initialize := fun _ => inr []
|}.

Example example_registry :
  match registry_t_ctor (fmap := assoc_map nat) example_world with
  | inr r =>
      m_plugins r = [1%nat]
      /\ m_factories r = [("perl"%string, 10%nat); ("python"%string, 11%nat)]
      /\ trace r = [dl_init; dl_open 1%nat; dl_open 2%nat; dl_close 2%nat]
      /\ logged r
         = [log_unable_to_load "/usr/lib/cocaine/README" "file not found";
            log_invalid_interface "/usr/lib/cocaine/b.so"
              "undefined symbol: initialize";
            log_available_modules "perl, python"]
  | inl _ => False
  end.
Proof. vm_compute. repeat split. Qed.

(** The empty library is opened, nothing is found, and nobody closes it. *)
Example hollow_plugin_stays_open :
  registry_t_ctor (fmap := assoc_map nat) hollow_world
  = inl (runtime_error_what "no plugins found", [dl_init; dl_open 3%nat]).
Proof. reflexivity. Qed.

(** The plugin is loaded, the iterator throws, and nobody closes it. *)
Example unreadable_directory_throws :
  registry_t_ctor (fmap := assoc_map nat) unreadable_world
  = inl (filesystem_error "boost::filesystem::directory_iterator::operator++",
         [dl_init; dl_open 1%nat]).
Proof. reflexivity. Qed.

Lemma registry_exists_iff_offered_witness :
  exists r,
    registry_t_ctor (fmap := assoc_map nat) example_world = inr r
    /\ registry_exists r "perl" = true
    /\ exists errors,
         logged r = errors ++ [log_available_modules "perl, python"].
Proof.
  eexists. split; [reflexivity|]. split; [reflexivity|].
  match goal with
  | |- exists errors, logged ?r = _ =>
      destruct (registry_exists_iff_offered example_world r eq_refl)
        as (files & Hfiles & _ & _ & _ & Hlog)
  end.
  injection Hfiles as <-.
  exists (flat_map (complaint example_world)
            ["/usr/lib/cocaine/a.so"; "/usr/lib/cocaine/README";
             "/usr/lib/cocaine/b.so"]%string).
  exact Hlog.
Defined.


Lemma registry_handles_accounted_witness :
  exists r,
    registry_t_ctor (fmap := assoc_map nat) example_world = inr r
    /\ Permutation (opened (trace r ++ registry_t_dtor r))
                   (closed (trace r ++ registry_t_dtor r))
    /\ closed (trace r ++ registry_t_dtor r) = [2%nat; 1%nat].
Proof.
  eexists. split; [reflexivity|]. split; [|reflexivity].
  refine (proj1 (proj2 (proj1 (registry_handles_accounted example_world) _ _))).
  reflexivity.
Defined.
